(** * ONNX Runtime tooling of transformer-deploy: a shallow embedding

    Source: [src/transformer_deploy/backends/ort_utils.py].

    Definitions come first, in the order of the source file:
    - the fragment of Python the functions rely on (exceptions, values,
      insertion-ordered dicts);
    - the protobuf graph ([ModelProto], [NodeProto], ...) with
      [get_io_to_node_mapping], [add_output_nodes] and the dependency
      propagation that ends [get_keep_fp32_nodes];
    - tensors as handles on storage kept in a heap, and [find_node_fp32];
    - [to_pytorch] and [inference_onnx_binding], in a state-and-exception
      monad, over an inference engine taken as a parameter;
    - the sampling loop of [get_keep_fp32_nodes], with fuel;
    - the vocabulary of the statements and a small engine on which the
      functions can be run.
    The properties follow, component by component. *)

From Stdlib Require Import ZArith QArith Qabs Lia.
From stdpp Require Import gmap strings list fin_maps.

Close Scope Q_scope.
Local Open Scope string_scope.
Local Open Scope list_scope.
Local Open Scope stdpp_scope.

(* ===================================================================== *)
(** ** Python fragment *)
(* ===================================================================== *)

(** Exceptions the functions can raise. [EngineError] stands for anything
    raised inside ONNX Runtime itself. *)
Inductive exn :=
| AssertionError
| KeyError
| EngineError.

Inductive result (A : Type) :=
| Ok (a : A)
| Raise (e : exn).
Arguments Ok {A} a.
Arguments Raise {A} e.

(** Values a caller can pass where a [str] is expected. *)
Inductive pyobj :=
| PyStr (s : string)
| PyInt (z : Z)
| PyNone.

#[global] Instance pyobj_eq_dec : EqDecision pyobj.
Proof. solve_decision. Defined.

(** [d[k] = v] on an insertion-ordered [dict]: an existing key keeps its
    position, a new key goes last. *)
Fixpoint dict_set {V} (k : string) (v : V) (d : list (string * V))
    : list (string * V) :=
  match d with
  | [] => [(k, v)]
  | (k', v') :: d' =>
      if decide (k' = k) then (k, v) :: d' else (k', v') :: dict_set k v d'
  end.

(** [list.pop()] removes the last element. *)
Definition list_pop {A} (l : list A) : list A := removelast l.

(* ===================================================================== *)
(** ** ONNX protobuf messages *)
(* ===================================================================== *)

Record NodeProto := {
  node_name : string;
  node_op_type : string;
  node_input : list string;
  node_output : list string
}.

(** [onnx.ValueInfoProto]: a name and optional type information
    (element type and dimensions). *)
Record ValueInfoProto := {
  vi_name : string;
  vi_type : option (Z * list Z)
}.

(** [onnx.TensorProto], as used for initializers. *)
Record TensorProto := {
  tp_name : string;
  tp_external : bool
}.

Record GraphProto := {
  graph_node : list NodeProto;
  graph_input : list ValueInfoProto;
  graph_output : list ValueInfoProto;
  graph_initializer : list TensorProto
}.

Record ModelProto := {
  ir_version : Z;
  graph : GraphProto
}.

#[global] Instance NodeProto_eq_dec : EqDecision NodeProto.
Proof. solve_decision. Defined.
#[global] Instance ValueInfoProto_eq_dec : EqDecision ValueInfoProto.
Proof. solve_decision. Defined.

(** [onnx.ValueInfoProto(name=output_name)] *)
Definition ValueInfoProto_of_name (output_name : string) : ValueInfoProto :=
  {| vi_name := output_name; vi_type := None |}.

Definition set_graph_output (model : ModelProto) (out : list ValueInfoProto) : ModelProto :=
  {| ir_version := ir_version model;
     graph := {| graph_node := graph_node (graph model);
                 graph_input := graph_input (graph model);
                 graph_output := out;
                 graph_initializer := graph_initializer (graph model) |} |}.

(* --------------------------------------------------------------------- *)
(** *** [get_io_to_node_mapping] *)

(** The inner [for i in node.input: input_mapping[i] = node.name]. *)
Definition record_inputs (nm : string) (ins : list string)
    (input_mapping : gmap string string) : gmap string string :=
  foldl (λ im i, <[i := nm]> im) input_mapping ins.

(** The outer loop over [onnx_model.graph.node], threading both dicts. *)
Fixpoint io_mapping_loop (nodes : list NodeProto)
    (input_mapping output_mapping : gmap string string)
    : result (gmap string string * gmap string string) :=
  match nodes with
  | [] => Ok (input_mapping, output_mapping)
  | node :: rest =>
      match node_output node with
      | [output_node] =>           (* assert len(node.output) == 1 *)
          io_mapping_loop rest
            (record_inputs (node_name node) (node_input node) input_mapping)
            (<[output_node := node_name node]> output_mapping)
      | _ => Raise AssertionError
      end
  end.

Definition get_io_to_node_mapping (onnx_model : ModelProto)
    : result (gmap string string * gmap string string) :=
  io_mapping_loop (graph_node (graph onnx_model)) ∅ ∅.

(* --------------------------------------------------------------------- *)
(** *** [add_output_nodes]

    Models are protobuf objects held by reference; [model_store] maps
    references to their current value, so that mutation of one object and
    the independence of a deep copy are both visible. *)

Definition ref := positive.
Abbreviation model_store := (gmap ref ModelProto).

(** [for n in model.graph.node: for output_name in n.output:
       output_nodes.append(onnx.ValueInfoProto(name=output_name))] *)
Definition collect_output_nodes (nodes : list NodeProto) : list ValueInfoProto :=
  foldl (λ output_nodes n,
           foldl (λ acc output_name, acc ++ [ValueInfoProto_of_name output_name])
                 output_nodes (node_output n))
        [] nodes.

(** [while model.graph.output: model.graph.output.pop()]; the list loses
    one element per iteration, so its length is enough fuel. *)
Fixpoint pop_while_nonempty {A} (fuel : nat) (l : list A) : list A :=
  match fuel with
  | O => l
  | S fuel' =>
      match l with
      | [] => []
      | _ :: _ => pop_while_nonempty fuel' (list_pop l)
      end
  end.

Definition clear_output (out : list ValueInfoProto) : list ValueInfoProto :=
  pop_while_nonempty (length out) out.

(** Returns the reference of the new model and the updated store; [None]
    only for a dangling reference, which Python cannot produce. *)
Definition add_output_nodes (σ : model_store) (model : ref) : option (ref * model_store) :=
  m ← σ !! model;
  let model' := fresh (dom σ) in                      (* copy.deepcopy(model) *)
  let σ1 := <[model' := m]> σ in
  let output_nodes := collect_output_nodes (graph_node (graph m)) in
  let σ2 := <[model' := set_graph_output m (clear_output (graph_output (graph m)))]> σ1 in
  m2 ← σ2 !! model';
  let σ3 := <[model' := set_graph_output m2 (graph_output (graph m2) ++ output_nodes)]> σ2 in
  Some (model', σ3).

(* --------------------------------------------------------------------- *)
(** *** Dependency propagation (end of [get_keep_fp32_nodes]) *)

Definition nodes_to_skip (g : GraphProto) : list string :=
  (vi_name <$> graph_input g) ++ (vi_name <$> graph_output g)
    ++ (tp_name <$> graph_initializer g).

(** [for o in node.output: ...] for one node; [map_children] is a
    [defaultdict(list)], so a missing key reads as the empty list. *)
Fixpoint children_of_outputs (skip : list string) (input_mapping : gmap string string)
    (nm : string) (outs : list string) (map_children : gmap string (list string))
    : result (gmap string (list string)) :=
  match outs with
  | [] => Ok map_children
  | o :: rest =>
      if decide (o ∈ skip) then
        children_of_outputs skip input_mapping nm rest map_children
      else
        match input_mapping !! o with
        | None => Raise KeyError                       (* input_mapping[o] *)
        | Some child =>
            children_of_outputs skip input_mapping nm rest
              (<[nm := default [] (map_children !! nm) ++ [child]]> map_children)
        end
  end.

Fixpoint build_map_children (skip : list string) (input_mapping : gmap string string)
    (nodes : list NodeProto) (map_children : gmap string (list string))
    : result (gmap string (list string)) :=
  match nodes with
  | [] => Ok map_children
  | node :: rest =>
      match children_of_outputs skip input_mapping (node_name node)
              (node_output node) map_children with
      | Raise e => Raise e
      | Ok mc => build_map_children skip input_mapping rest mc
      end
  end.

(** [[c for k in keep_fp32_nodes if k in map_children for c in map_children[k]]] *)
Definition children_of_kept (map_children : gmap string (list string))
    (keep_fp32_nodes : list string) : list string :=
  flat_map (λ k, match map_children !! k with
                 | Some cs => cs
                 | None => []
                 end) keep_fp32_nodes.

(** Lines 388-403: the comprehension is evaluated on the list as it stands,
    then appended by [+=]. *)
Definition propagate_children (onnx_model : ModelProto)
    (input_mapping : gmap string string) (keep_fp32_nodes : list string)
    : result (list string) :=
  match build_map_children (nodes_to_skip (graph onnx_model)) input_mapping
          (graph_node (graph onnx_model)) ∅ with
  | Raise e => Raise e
  | Ok map_children =>
      Ok (keep_fp32_nodes ++ children_of_kept map_children keep_fp32_nodes)
  end.

(* ===================================================================== *)
(** ** Tensors *)
(* ===================================================================== *)

Inductive torch_dtype :=
| torch_bool | torch_uint8 | torch_int8 | torch_int16 | torch_int32
| torch_int64 | torch_float16 | torch_float32 | torch_float64
| torch_complex64 | torch_complex128
| torch_bfloat16 | torch_complex32.   (* torch types with no numpy counterpart *)

Inductive numpy_dtype :=
| np_bool | np_uint8 | np_int8 | np_int16 | np_int32 | np_int64
| np_float16 | np_float32 | np_float64 | np_complex64 | np_complex128.

#[global] Instance torch_dtype_eq_dec : EqDecision torch_dtype.
Proof. solve_decision. Defined.
#[global] Instance numpy_dtype_eq_dec : EqDecision numpy_dtype.
Proof. solve_decision. Defined.

(** [d[k]] on a dict given by its items. *)
Fixpoint dict_get {K V} `{EqDecision K} (k : K) (d : list (K * V)) : option V :=
  match d with
  | [] => None
  | (k', v) :: d' => if decide (k' = k) then Some v else dict_get k d'
  end.

Definition numpy_to_torch_dtype_dict : list (numpy_dtype * torch_dtype) :=
  [ (np_bool, torch_bool); (np_uint8, torch_uint8); (np_int8, torch_int8);
    (np_int16, torch_int16); (np_int32, torch_int32); (np_int64, torch_int64);
    (np_float16, torch_float16); (np_float32, torch_float32);
    (np_float64, torch_float64); (np_complex64, torch_complex64);
    (np_complex128, torch_complex128) ].

(** [{v: k for k, v in numpy_to_torch_dtype_dict.items()}] *)
Definition torch_to_numpy_dtype_dict : list (torch_dtype * numpy_dtype) :=
  (λ kv, (kv.2, kv.1)) <$> numpy_to_torch_dtype_dict.

Definition ort_to_numpy_dtype_dict : list (string * numpy_dtype) :=
  [ ("tensor(bool)", np_uint8); ("tensor(float16)", np_float16);
    ("tensor(float)", np_float32); ("tensor(float64)", np_float64);
    ("tensor(int32)", np_int32); ("tensor(int64)", np_int64) ].

(** An element of a tensor: an integer, or a floating-point datum, which
    is NaN, an infinity or a finite value (kept exactly, as a rational). *)
Inductive scalar :=
| SInt (z : Z)
| SNan
| SInf (negative : bool)
| SFin (q : Q).

Definition Qltb (x y : Q) : bool :=
  match Qcompare x y with Lt => true | _ => false end.

(** [x < c], [x > c] and [x != 0] for an element [x] and a Python float
    [c]; comparisons with NaN are false, except [!=]. *)
Definition scalar_lt (x : scalar) (c : Q) : bool :=
  match x with
  | SInt z => Qltb (inject_Z z) c
  | SNan => false
  | SInf negative => negative
  | SFin q => Qltb q c
  end.

Definition scalar_gt (x : scalar) (c : Q) : bool :=
  match x with
  | SInt z => Qltb c (inject_Z z)
  | SNan => false
  | SInf negative => negb negative
  | SFin q => Qltb c q
  end.

Definition scalar_ne_0 (x : scalar) : bool :=
  match x with
  | SInt z => negb (z =? 0)%Z
  | SNan => true
  | SInf _ => true
  | SFin q => negb (Qeq_bool q 0)
  end.

(** Storage lives in a heap; a tensor is a handle on one storage. *)
Definition addr := N.
Abbreviation heap := (gmap addr (list scalar)).

Record Tensor := {
  dtype : torch_dtype;
  shape : list Z;
  data_ptr : addr;
  is_contiguous : bool;
  requires_grad : bool
}.

Definition alloc (data : list scalar) (h : heap) : addr * heap :=
  let a := fresh (dom h) in (a, <[a := data]> h).

(** The elements a tensor currently shows. *)
Definition tensor_data (h : heap) (t : Tensor) : list scalar :=
  default [] (h !! data_ptr t).

(** [tensor.detach()]: same storage, cut from the autograd graph. *)
Definition detach (t : Tensor) : Tensor :=
  {| dtype := dtype t; shape := shape t; data_ptr := data_ptr t;
     is_contiguous := is_contiguous t; requires_grad := false |}.

(** Two's complement wrap-around of a 64-bit value narrowed to 32 bits. *)
Definition wrap_int32 (z : Z) : Z := ((z + 2 ^ 31) mod 2 ^ 32 - 2 ^ 31)%Z.

(** Element conversion to int32. Only integers occur in the int64 tensors
    this is applied to; a finite float is truncated towards zero, and the
    remaining cases take the value C's conversion produces on x86. *)
Definition to_int32 (x : scalar) : scalar :=
  match x with
  | SInt z => SInt (wrap_int32 z)
  | SFin q => SInt (wrap_int32 (Z.quot (Qnum q) (Zpos (Qden q))))
  | SNan | SInf _ => SInt (- 2 ^ 31)
  end.

(** [tensor.type(dtype=torch.int32)]: a new tensor on new storage; the
    layout is preserved. *)
Definition type_int32 (t : Tensor) (h : heap) : Tensor * heap :=
  let '(a, h') := alloc (to_int32 <$> tensor_data h t) h in
  ({| dtype := torch_int32; shape := shape t; data_ptr := a;
      is_contiguous := is_contiguous t; requires_grad := requires_grad t |}, h').

(** [tensor.contiguous()]: the tensor itself when already contiguous,
    else a contiguous copy. *)
Definition contiguous (t : Tensor) (h : heap) : Tensor * heap :=
  if is_contiguous t then (t, h)
  else
    let '(a, h') := alloc (tensor_data h t) h in
    ({| dtype := dtype t; shape := shape t; data_ptr := a;
        is_contiguous := true; requires_grad := requires_grad t |}, h').

(** [tensor.clone()] *)
Definition clone (t : Tensor) (h : heap) : Tensor * heap :=
  let '(a, h') := alloc (tensor_data h t) h in
  ({| dtype := dtype t; shape := shape t; data_ptr := a;
      is_contiguous := is_contiguous t; requires_grad := requires_grad t |}, h').

(* --------------------------------------------------------------------- *)
(** *** [find_node_fp32] *)

(** [torch.finfo(torch.float16).min], [.max] *)
Definition min_float16 : Q := (-65504) # 1.
Definition max_float16 : Q := 65504 # 1.

(** [resolution = 5.96e-08]. The tensor compared with it is float32, so
    the literal is taken at float32 precision: 16775909 * 2^-48. No
    float32 value lies between the two, hence the comparisons agree with
    the ones against the decimal literal. *)
Definition resolution : Q := 16775909 # (2 ^ 48).

Definition any (p : scalar → bool) (data : list scalar) : bool := existsb p data.

(** The condition of the [if] at lines 305-309. *)
Definition out_of_fp16 (data : list scalar) : bool :=
  any (λ x, scalar_gt x max_float16) data
  || any (λ x, scalar_lt x min_float16) data
  || any (λ x, scalar_lt x resolution && scalar_gt x (Qopp resolution)
               && scalar_ne_0 x) data.

Fixpoint find_node_fp32_loop (graph : gmap string string) (h : heap)
    (items : list (string * Tensor)) (keep_fp32 : list string)
    : result (list string) :=
  match items with
  | [] => Ok keep_fp32
  | (k, tensor) :: rest =>
      if decide (dtype tensor ≠ torch_float32) then
        find_node_fp32_loop graph h rest keep_fp32            (* continue *)
      else if out_of_fp16 (tensor_data h tensor) then
        match graph !! k with
        | None => Raise KeyError                               (* graph[k] *)
        | Some n => find_node_fp32_loop graph h rest (keep_fp32 ++ [n])
        end
      else find_node_fp32_loop graph h rest keep_fp32
  end.

(** [output_nodes] is a dict, given by its items in iteration order; the
    heap is only read. *)
Definition find_node_fp32 (graph : gmap string string)
    (output_nodes : list (string * Tensor)) (h : heap) : result (list string) :=
  find_node_fp32_loop graph h output_nodes [].

(* ===================================================================== *)
(** ** Zero-copy inference bridge *)
(* ===================================================================== *)

(** [onnxruntime.OrtValue]: a tensor held by the engine. *)
Record OrtValue := {
  ort_device_name : string;
  ort_data_type : string;
  ort_data_ptr : addr;
  ort_shape : list Z
}.

(** [numpy.ndarray] *)
Record ndarray := {
  nd_dtype : numpy_dtype;
  nd_shape : list Z;
  nd_data : addr
}.

(** One [bind_input] and one [bind_output] registration. *)
Record bound_input := {
  bi_name : string;
  bi_device_type : string;
  bi_device_id : Z;
  bi_element_type : numpy_dtype;
  bi_shape : list Z;
  bi_buffer_ptr : addr
}.

Record bound_output := {
  bo_name : string;
  bo_device_type : string;
  bo_device_id : Z
}.

(** [onnxruntime.IOBinding]: registrations, and the values the last run
    left ([get_outputs()]). *)
Record IOBinding := {
  binding_inputs : list bound_input;
  binding_outputs : list bound_output;
  binding_values : list OrtValue
}.

(** [onnxruntime.InferenceSession]: names of [get_inputs()] and
    [get_outputs()]. *)
Record InferenceSession := {
  session_inputs : list string;
  session_outputs : list string
}.

Definition io_binding : IOBinding :=
  {| binding_inputs := []; binding_outputs := []; binding_values := [] |}.

Definition clear_binding_inputs (b : IOBinding) : IOBinding :=
  {| binding_inputs := []; binding_outputs := binding_outputs b;
     binding_values := binding_values b |}.

Definition clear_binding_outputs (b : IOBinding) : IOBinding :=
  {| binding_inputs := binding_inputs b; binding_outputs := [];
     binding_values := [] |}.

Definition bind_input (i : bound_input) (b : IOBinding) : IOBinding :=
  {| binding_inputs := binding_inputs b ++ [i];
     binding_outputs := binding_outputs b;
     binding_values := binding_values b |}.

Definition bind_output (o : bound_output) (b : IOBinding) : IOBinding :=
  {| binding_inputs := binding_inputs b;
     binding_outputs := binding_outputs b ++ [o];
     binding_values := binding_values b |}.

Definition set_values (vs : list OrtValue) (b : IOBinding) : IOBinding :=
  {| binding_inputs := binding_inputs b;
     binding_outputs := binding_outputs b;
     binding_values := vs |}.

(** [str.lower()] on ASCII. *)
Definition lower_ascii (c : Ascii.ascii) : Ascii.ascii :=
  let n := Ascii.nat_of_ascii c in
  if (65 <=? n)%nat && (n <=? 90)%nat then Ascii.ascii_of_nat (n + 32) else c.

Fixpoint lower (s : string) : string :=
  match s with
  | EmptyString => EmptyString
  | String c s' => String (lower_ascii c) (lower s')
  end.

(** The torch type a numpy type converts to ([torch.from_numpy],
    [torch.from_dlpack]). *)
Definition torch_of_numpy (t : numpy_dtype) : torch_dtype :=
  default torch_float32 (dict_get t numpy_to_torch_dtype_dict).

(** What is mutable during one call of [inference_onnx_binding]: storage,
    the caller's [inputs] dict and the binding ([None] when the caller
    passed none). *)
Record call_state := {
  cs_heap : heap;
  cs_inputs : gmap string Tensor;
  cs_binding : option IOBinding
}.

(** State and exceptions; the state survives a raise. *)
Definition M (A : Type) : Type := call_state → result A * call_state.

#[global] Instance M_ret : MRet M := λ A a s, (Ok a, s).
#[global] Instance M_bind : MBind M := λ A B f m s,
  match m s with
  | (Ok a, s') => f a s'
  | (Raise e, s') => (Raise e, s')
  end.

Definition raise {A} (e : exn) : M A := λ s, (Raise e, s).
Definition assert (b : bool) : M unit := if b then mret () else raise AssertionError.
Definition get_state : M call_state := λ s, (Ok s, s).

Definition on_heap {A} (f : heap → A * heap) : M A := λ s,
  let '(a, h') := f (cs_heap s) in
  (Ok a, {| cs_heap := h'; cs_inputs := cs_inputs s; cs_binding := cs_binding s |}).

Definition on_heap_result {A} (f : heap → result A * heap) : M A := λ s,
  let '(r, h') := f (cs_heap s) in
  (r, {| cs_heap := h'; cs_inputs := cs_inputs s; cs_binding := cs_binding s |}).

Definition set_input (k : string) (t : Tensor) : M unit := λ s,
  (Ok (), {| cs_heap := cs_heap s; cs_inputs := <[k := t]> (cs_inputs s);
             cs_binding := cs_binding s |}).

Definition set_binding (b : IOBinding) : M unit := λ s,
  (Ok (), {| cs_heap := cs_heap s; cs_inputs := cs_inputs s; cs_binding := Some b |}).

Definition on_binding (f : IOBinding → IOBinding) : M unit := λ s,
  (Ok (), {| cs_heap := cs_heap s; cs_inputs := cs_inputs s;
             cs_binding := f <$> cs_binding s |}).

Definition lookup_or_raise {K V} `{EqDecision K} (k : K) (d : list (K * V)) : M V :=
  match dict_get k d with
  | Some v => mret v
  | None => raise KeyError
  end.

Fixpoint for_each {A} (l : list A) (body : A → M unit) : M unit :=
  match l with
  | [] => mret ()
  | x :: l' => _ ← body x; for_each l' body
  end.

(** ONNX Runtime is outside the repository. [ort_numpy] is
    [OrtValue.numpy()]; [run_with_iobinding] executes the graph on the
    bound buffers and yields the values of [binding.get_outputs()];
    [new_session] is the constructor [InferenceSession(path, options,
    providers)] on a saved model. *)
Class Engine := {
  ort_numpy : OrtValue → heap → ndarray * heap;
  run_with_iobinding :
    InferenceSession → IOBinding → heap → result (list OrtValue) * heap;
  new_session : ModelProto → list string → InferenceSession
}.

Section Bridge.

Context {engine : Engine}.

(** [create_model_for_provider]: a provider given as a string is wrapped
    in a list; the session options have no counterpart here. *)
Definition create_model_for_provider (model : ModelProto) (provider_to_use : string)
    : InferenceSession :=
  new_session model [provider_to_use].

Definition to_pytorch (ort_tensor : OrtValue) (clone_tensor : bool) (h : heap)
    : result Tensor * heap :=
  if decide (lower (ort_device_name ort_tensor) = "cuda") then
    match dict_get (ort_data_type ort_tensor) ort_to_numpy_dtype_dict with
    | None => (Raise KeyError, h)
    | Some np_type =>
        (* cp.ndarray over UnownedMemory(data_ptr), then from_dlpack *)
        let torch_tensor :=
          {| dtype := torch_of_numpy np_type; shape := ort_shape ort_tensor;
             data_ptr := ort_data_ptr ort_tensor;
             is_contiguous := true; requires_grad := false |} in
        if clone_tensor then
          let '(t, h') := clone torch_tensor h in (Ok t, h')
        else (Ok torch_tensor, h)
    end
  else
    let '(np_tensor, h') := ort_numpy ort_tensor h in
    (* torch.from_numpy shares the array's memory *)
    (Ok {| dtype := torch_of_numpy (nd_dtype np_tensor);
           shape := nd_shape np_tensor; data_ptr := nd_data np_tensor;
           is_contiguous := true; requires_grad := false |}, h').

(** Body of the loop over [model_onnx.get_inputs()]. *)
Definition bind_one_input (device : string) (device_id : Z) (input_name : string)
    : M unit :=
  s ← get_state;
  match cs_inputs s !! input_name with
  | None => mret ()                             (* some inputs may be optional *)
  | Some tensor =>
      let tensor := detach tensor in
      tensor ← (if decide (dtype tensor = torch_int64)
                then on_heap (type_int32 tensor)
                else mret tensor);
      tensor ← on_heap (contiguous tensor);
      element_type ← lookup_or_raise (dtype tensor) torch_to_numpy_dtype_dict;
      _ ← on_binding (bind_input
             {| bi_name := input_name; bi_device_type := device;
                bi_device_id := device_id; bi_element_type := element_type;
                bi_shape := shape tensor; bi_buffer_ptr := data_ptr tensor |});
      set_input input_name tensor
  end.

(** [binding.synchronize_inputs(); model_onnx.run_with_iobinding(binding);
    binding.synchronize_outputs()] *)
Definition run (model_onnx : InferenceSession) : M unit :=
  s ← get_state;
  vs ← on_heap_result
         (run_with_iobinding model_onnx (default io_binding (cs_binding s)));
  on_binding (set_values vs).

(** [for out, t in zip(...): outputs[out.name] = to_pytorch(t, clone_tensor)] *)
Fixpoint collect_outputs (clone_tensor : bool) (pairs : list (string * OrtValue))
    (outputs : list (string * Tensor)) : M (list (string * Tensor)) :=
  match pairs with
  | [] => mret outputs
  | (out_name, t) :: rest =>
      tensor ← on_heap_result (to_pytorch t clone_tensor);
      collect_outputs clone_tensor rest (dict_set out_name tensor outputs)
  end.

(** Lines 230-269, what follows the checks on [device]. *)
Definition bind_and_run (model_onnx : InferenceSession)
    (device : string) (device_id : Z) (clone_tensor : bool)
    : M (list (string * Tensor)) :=
  s ← get_state;
  _ ← match cs_binding s with
      | None => set_binding io_binding
      | Some _ =>
          _ ← on_binding clear_binding_inputs;
          on_binding clear_binding_outputs
      end;
  _ ← for_each (session_inputs model_onnx) (bind_one_input device device_id);
  _ ← for_each (session_outputs model_onnx) (λ out_name,
         on_binding (bind_output
           {| bo_name := out_name; bo_device_type := device;
              bo_device_id := device_id |}));
  _ ← run model_onnx;
  s ← get_state;
  let values := binding_values (default io_binding (cs_binding s)) in
  _ ← assert (bool_decide (length (session_outputs model_onnx) = length values));
  collect_outputs clone_tensor (zip (session_outputs model_onnx) values) [].

(** The caller's [inputs] and [binding] arguments are the [cs_inputs] and
    [cs_binding] of the initial state. *)
Definition inference_onnx_binding (model_onnx : InferenceSession)
    (device : pyobj) (device_id : Z) (clone_tensor : bool)
    : M (list (string * Tensor)) :=
  match device with
  | PyStr device =>                         (* assert isinstance(device, str) *)
      _ ← assert (bool_decide (device ∈ ["cpu"; "cuda"]));
      bind_and_run model_onnx device device_id clone_tensor
  | _ => raise AssertionError
  end.

End Bridge.

(* ===================================================================== *)
(** ** Mixed-precision advisor: [get_keep_fp32_nodes] *)
(* ===================================================================== *)

(** How a run of a possibly unbounded loop ends. *)
Inductive outcome (A : Type) :=
| Finished (a : A)
| Raised (e : exn)
| OutOfFuel.
Arguments Finished {A} a.
Arguments Raised {A} e.
Arguments OutOfFuel {A}.

(** The variables the [while] loop reads and writes, and what lives
    across iterations: the generator behind [get_input], the reused
    binding and the heap. *)
Record loop_state (G : Type) := {
  keep_fp32_nodes : list string;
  no_new_node_counter : Z;
  ls_gen : G;
  ls_binding : IOBinding;
  ls_heap : heap
}.
Arguments keep_fp32_nodes {G} _.
Arguments no_new_node_counter {G} _.
Arguments ls_gen {G} _.
Arguments ls_binding {G} _.
Arguments ls_heap {G} _.

(** The caller's [get_input]: a generator with hidden state [G]. *)
Class Generator (G : Type) := {
  get_input : G → heap → gmap string Tensor * G * heap
}.

(** The variables of [get_keep_fp32_nodes] the loop only reads. *)
Record sampling_env := {
  ort_model_fp32_all_nodes : InferenceSession;
  output_mapping : gmap string string;
  device : string;
  early_stop : Z
}.

Section Advisor.

Context {engine : Engine} {G : Type} {generator : Generator G}.

Section Loop.

Variable env : sampling_env.

(** Lines 372-376: draw inputs, run the instrumented model on the
    reused binding without cloning, run the detector. *)
Definition sample (st : loop_state G) : result (list string * loop_state G) :=
  let '(inputs, g', h1) := get_input (ls_gen st) (ls_heap st) in
  match inference_onnx_binding (ort_model_fp32_all_nodes env)
          (PyStr (device env)) 0 false
          {| cs_heap := h1; cs_inputs := inputs;
             cs_binding := Some (ls_binding st) |} with
  | (Raise e, _) => Raise e
  | (Ok outputs, cs) =>
      match find_node_fp32 (output_mapping env) outputs (cs_heap cs) with
      | Raise e => Raise e
      | Ok keep_node_io =>
          Ok (keep_node_io,
              {| keep_fp32_nodes := keep_fp32_nodes st;
                 no_new_node_counter := no_new_node_counter st;
                 ls_gen := g';
                 ls_binding := default (ls_binding st) (cs_binding cs);
                 ls_heap := cs_heap cs |})
      end
  end.

(** [[n for n in keep_node_io if n not in keep_fp32_nodes]] *)
Definition nodes_to_add (keep_node_io keep : list string) : list string :=
  filter (λ n, n ∉ keep) keep_node_io.

(** Lines 378-383. *)
Definition accumulate (keep_node_io : list string) (st : loop_state G)
    : loop_state G :=
  let to_add := nodes_to_add keep_node_io (keep_fp32_nodes st) in
  {| keep_fp32_nodes := keep_fp32_nodes st ++ to_add;
     no_new_node_counter :=
       if decide (length to_add = 0%nat)
       then (no_new_node_counter st + 1)%Z else 0%Z;
     ls_gen := ls_gen st; ls_binding := ls_binding st; ls_heap := ls_heap st |}.

(** One pass through the body of the [while]. *)
Definition loop_body (st : loop_state G) : result (loop_state G) :=
  match sample st with
  | Raise e => Raise e
  | Ok (keep_node_io, st') => Ok (accumulate keep_node_io st')
  end.

(** [while no_new_node_counter < early_stop: ...]; [fuel] bounds the
    number of tests of the condition. *)
Fixpoint sampling_loop (fuel : nat) (st : loop_state G) : outcome (loop_state G) :=
  match fuel with
  | O => OutOfFuel
  | S fuel' =>
      if decide (no_new_node_counter st < early_stop env)%Z then
        match loop_body st with
        | Raise e => Raised e
        | Ok st' => sampling_loop fuel' st'
        end
      else Finished st
  end.

(** The state after [n] passes through the body, the loop condition
    aside. *)
Fixpoint iterate (n : nat) (st : loop_state G) : result (loop_state G) :=
  match n with
  | O => Ok st
  | S n' =>
      match loop_body st with
      | Raise e => Raise e
      | Ok st' => iterate n' st'
      end
  end.

End Loop.

(** [onnx_model] is the model read from [onnx_model_path]; the
    instrumented copy is saved and a session opened on it.
    [torch.cuda.empty_cache()] has no counterpart here. *)
Definition get_keep_fp32_nodes (fuel : nat) (onnx_model : ModelProto)
    (g : G) (early_stop : Z) (device : string) (h : heap)
    : outcome (list string) :=
  let σ : model_store := {[ 1%positive := onnx_model ]} in
  (* the reference is live, so the default is not used *)
  let onnx_model_fp32_all_nodes :=
    default onnx_model (add_output_nodes σ 1%positive ≫= λ p, p.2 !! p.1) in
  let provider :=
    if decide (device = "cuda") then "CUDAExecutionProvider"
    else "CPUExecutionProvider" in
  let ort_model_fp32_all_nodes :=
    create_model_for_provider onnx_model_fp32_all_nodes provider in
  let ort_binding := io_binding in
  match get_io_to_node_mapping onnx_model with
  | Raise e => Raised e
  | Ok (input_mapping, output_mapping) =>
      match sampling_loop
              {| ort_model_fp32_all_nodes := ort_model_fp32_all_nodes;
                 output_mapping := output_mapping;
                 device := device; early_stop := early_stop |}
              fuel
              {| keep_fp32_nodes := []; no_new_node_counter := 0;
                 ls_gen := g; ls_binding := ort_binding; ls_heap := h |} with
      | OutOfFuel => OutOfFuel
      | Raised e => Raised e
      | Finished st =>
          match propagate_children onnx_model input_mapping (keep_fp32_nodes st) with
          | Raise e => Raised e
          | Ok keep => Finished keep
          end
      end
  end.

End Advisor.

(* ===================================================================== *)
(** ** Vocabulary of the statements *)
(* ===================================================================== *)

(** The name recorded for [x] once [nodes] have been visited: that of the
    last node selected by [P], else what the dict held before. *)
Definition last_named (P : NodeProto → Prop) `{∀ n, Decision (P n)}
    (nodes : list NodeProto) (before : option string) : option string :=
  match last (filter P nodes) with
  | Some n => Some (node_name n)
  | None => before
  end.

Definition one_output (n : NodeProto) : Prop := length (node_output n) = 1.

#[global] Instance one_output_dec n : Decision (one_output n).
Proof. unfold one_output. apply _. Defined.


Definition mk_node (nm : string) (ins outs : list string) : NodeProto :=
  {| node_name := nm; node_op_type := "Relu"; node_input := ins; node_output := outs |}.

Definition mk_model (nodes : list NodeProto) (ins outs : list string) : ModelProto :=
  {| ir_version := 8;
     graph := {| graph_node := nodes;
                 graph_input := ValueInfoProto_of_name <$> ins;
                 graph_output := ValueInfoProto_of_name <$> outs;
                 graph_initializer := [] |} |}.

(** x -> A -> a -> B -> y *)
Definition chain_model : ModelProto :=
  mk_model [mk_node "A" ["x"] ["a"]; mk_node "B" ["a"] ["y"]] ["x"] ["y"].

(** The output of A feeds both B and C (a skip connection):
    x -> A -> a -> B -> b -> C -> y, and a -> C. *)
Definition fanout_model : ModelProto :=
  mk_model [mk_node "A" ["x"] ["a"]; mk_node "B" ["a"] ["b"];
            mk_node "C" ["a"; "b"] ["y"]] ["x"] ["y"].

(** A and B both feed C. *)
Definition join_model : ModelProto :=
  mk_model [mk_node "A" ["x"] ["a"]; mk_node "B" ["x"] ["b"];
            mk_node "C" ["a"; "b"] ["y"]] ["x"] ["y"].

(** An element lies strictly outside [[min_float16, max_float16]]. NaN
    compares false with everything, so it is not outside. *)
Definition exceeds_range (x : scalar) : Prop :=
  match x with
  | SInt z => (max_float16 < inject_Z z ∨ inject_Z z < min_float16)%Q
  | SNan => False
  | SInf _ => True
  | SFin q => (max_float16 < q ∨ q < min_float16)%Q
  end.

(** An element is not zero and its magnitude is below [resolution]. *)
Definition tiny_nonzero (x : scalar) : Prop :=
  match x with
  | SInt z => z ≠ 0%Z ∧ (Qabs (inject_Z z) < resolution)%Q
  | SNan => False
  | SInf _ => False
  | SFin q => ¬ (q == 0)%Q ∧ (Qabs q < resolution)%Q
  end.

(** An element is zero, or its magnitude is at least [resolution] and at
    most [max_float16]. *)
Definition zero_or_in_range (x : scalar) : Prop :=
  match x with
  | SInt z => z = 0%Z ∨ (resolution <= Qabs (inject_Z z) <= max_float16)%Q
  | SNan => False
  | SInf _ => False
  | SFin q => (q == 0)%Q ∨ (resolution <= Qabs q <= max_float16)%Q
  end.

(** A sampled output the detector reports. *)
Definition flagged (h : heap) (kt : string * Tensor) : Prop :=
  dtype kt.2 = torch_float32
  ∧ ∃ x, x ∈ tensor_data h kt.2 ∧ (exceeds_range x ∨ tiny_nonzero x).

(** What [graph[k]] yields for each reported output, or [KeyError]. *)
Definition producers (graph : gmap string string) (items : list (string * Tensor))
    : result (list string) :=
  match mapM (λ kt : string * Tensor, graph !! kt.1) items with
  | Some names => Ok names
  | None => Raise KeyError
  end.

(** [torch.finfo(torch.float16).smallest_normal], 2^-14 = 6.1035e-05. *)
Definition float16_smallest_normal : Q := 1 # (2 ^ 14).

(** [torch.finfo(torch.float16).eps], 2^-10 = 0.000977. *)
Definition float16_eps : Q := 1 # (2 ^ 10).

(** A float32 tensor holding the single value 2^-15 = 3.0517578125e-05. *)
Definition small_value_heap : heap := {[ 0%N := [SFin (1 # (2 ^ 15))] ]}.
Definition small_value_tensor : Tensor :=
  {| dtype := torch_float32; shape := [1%Z]; data_ptr := 0%N;
     is_contiguous := true; requires_grad := false |}.

(* --------------------------------------------------------------------- *)
(** *** A small engine, for running the functions on examples

    Every output of the graph takes the value of the first element of the
    first bound input (the identity network). The engine owns one buffer
    per output, at addresses 100, 101, ..., and writes into them at each
    run; its values sit on the device the outputs were bound to. *)

Definition toy_value (b : IOBinding) (h : heap) : scalar :=
  match binding_inputs b with
  | i :: _ =>
      match h !! bi_buffer_ptr i with
      | Some (SInt z :: _) => SFin (inject_Z z)
      | Some (x :: _) => x
      | _ => SFin 0
      end
  | [] => SFin 0
  end.

Definition toy_buffer (i : nat) : addr := (100 + N.of_nat i)%N.

(** [post i v] is the value output [i] takes when the input holds [v]. *)
Definition toy_run_with (post : nat → scalar → scalar)
    (_ : InferenceSession) (b : IOBinding) (h : heap)
    : result (list OrtValue) * heap :=
  let v := toy_value b h in
  (Ok (imap (λ i o, {| ort_device_name := bo_device_type o;
                       ort_data_type := "tensor(float)";
                       ort_data_ptr := toy_buffer i; ort_shape := [1%Z] |})
            (binding_outputs b)),
   foldr (λ i h', <[toy_buffer i := [post i v]]> h') h
         (seq 0 (length (binding_outputs b)))).

(** Outputs from the [n]-th on stay at 1, whatever the input. *)
Definition quiet_from (n i : nat) (v : scalar) : scalar :=
  if (i <? n)%nat then v else SFin 1.

(** [OrtValue.numpy()] as a view on the engine's buffer. *)
Definition view_numpy (t : OrtValue) (h : heap) : ndarray * heap :=
  ({| nd_dtype := default np_float32 (dict_get (ort_data_type t) ort_to_numpy_dtype_dict);
      nd_shape := ort_shape t; nd_data := ort_data_ptr t |}, h).

(** [OrtValue.numpy()] as a copy into a new array. *)
Definition copy_numpy (t : OrtValue) (h : heap) : ndarray * heap :=
  let '(a, h') := alloc (default [] (h !! ort_data_ptr t)) h in
  ({| nd_dtype := default np_float32 (dict_get (ort_data_type t) ort_to_numpy_dtype_dict);
      nd_shape := ort_shape t; nd_data := a |}, h').

Definition toy_session (m : ModelProto) (_ : list string) : InferenceSession :=
  {| session_inputs := vi_name <$> graph_input (graph m);
     session_outputs := vi_name <$> graph_output (graph m) |}.

(** An int64 tensor on the storage at address 1. *)
Definition toy_input_tensor : Tensor :=
  {| dtype := torch_int64; shape := [1%Z]; data_ptr := 1%N;
     is_contiguous := true; requires_grad := false |}.

(** A generator that always returns the same input; its state counts the
    calls. *)
Definition toy_get_input (g : nat) (h : heap) : gmap string Tensor * nat * heap :=
  ({[ "x" := toy_input_tensor ]}, S g, h).

Definition toy_generator : Generator nat := {| get_input := toy_get_input |}.

Definition toy_engine (numpy : OrtValue → heap → ndarray * heap)
    (post : nat → scalar → scalar) : Engine :=
  {| ort_numpy := numpy; run_with_iobinding := toy_run_with post;
     new_session := toy_session |}.

(** [numpy()] is a view; [numpy()] is a copy; [numpy()] is a view and the
    outputs from the third on stay in range. *)
Definition view_engine : Engine := toy_engine view_numpy (λ _ v, v).
Definition copy_engine : Engine := toy_engine copy_numpy (λ _ v, v).
Definition quiet_engine : Engine := toy_engine view_numpy (quiet_from 2).

(** The input holds [z]; the engine's buffers exist and are empty. *)
Definition toy_heap (z : Z) : heap :=
  {[ 1%N := [SInt z]; 100%N := []; 101%N := []; 102%N := [] ]}.

Definition toy_call_state (z : Z) (b : option IOBinding) : call_state :=
  {| cs_heap := toy_heap z; cs_inputs := {[ "x" := toy_input_tensor ]};
     cs_binding := b |}.

(** The element type a tensor has once prepared for binding. *)
Definition narrowed (d : torch_dtype) : torch_dtype :=
  if decide (d = torch_int64) then torch_int32 else d.

(** [t'] is [t] detached, narrowed and made contiguous. *)
Definition prepared (t t' : Tensor) : Prop :=
  dtype t' = narrowed (dtype t) ∧ requires_grad t' = false
  ∧ is_contiguous t' = true ∧ shape t' = shape t.


(** What the steps after the input loop leave alone. *)
Definition bound_view (s : call_state) : gmap string Tensor * option (list bound_input) :=
  (cs_inputs s, binding_inputs <$> cs_binding s).


(** A second input, on the storage at address 2. *)
Definition second_input_tensor : Tensor :=
  {| dtype := torch_int64; shape := [1%Z]; data_ptr := 2%N;
     is_contiguous := true; requires_grad := false |}.

(** Two consecutive calls of [inference_onnx_binding] on the same binding,
    the first on the input 70000, the second on the input 5: what the
    tensor returned for output "a" by the first call shows before and
    after the second call. *)
Definition two_calls (engine : Engine)
    (device : string) (clone_tensor : bool) : option (list scalar * list scalar) :=
  let session := toy_session (mk_model [mk_node "A" ["x"] ["a"]] ["x"] ["a"]) [] in
  let s0 := {| cs_heap := <[2%N := [SInt 5]]> (toy_heap 70000);
               cs_inputs := {[ "x" := toy_input_tensor ]};
               cs_binding := Some io_binding |} in
  match inference_onnx_binding session (PyStr device) 0 clone_tensor s0 with
  | (Ok outputs1, s1) =>
      first ← dict_get "a" outputs1;
      let before := tensor_data (cs_heap s1) first in
      let s1' := {| cs_heap := cs_heap s1;
                    cs_inputs := {[ "x" := second_input_tensor ]};
                    cs_binding := cs_binding s1 |} in
      match inference_onnx_binding session (PyStr device) 0 clone_tensor s1' with
      | (Ok _, s2) => Some (before, tensor_data (cs_heap s2) first)
      | _ => None
      end
  | _ => None
  end.


(** The loop of [get_keep_fp32_nodes] on [chain_model], the small engine
    and the constant generator, with the input 70000 (above the float16
    range) and a threshold of 3. *)
Definition chain_all_nodes : ModelProto :=
  mk_model [mk_node "A" ["x"] ["a"]; mk_node "B" ["a"] ["y"]] ["x"] ["a"; "y"].

Definition chain_output_mapping : gmap string string :=
  match get_io_to_node_mapping chain_model with
  | Ok (_, output_mapping) => output_mapping
  | Raise _ => ∅
  end.

Definition toy_loop_state : loop_state nat :=
  {| keep_fp32_nodes := []; no_new_node_counter := 0; ls_gen := 0%nat;
     ls_binding := io_binding; ls_heap := toy_heap 70000 |}.

Definition toy_env : sampling_env :=
  {| ort_model_fp32_all_nodes := toy_session chain_all_nodes [];
     output_mapping := chain_output_mapping; device := "cpu"; early_stop := 3 |}.

Definition toy_iterate (n : nat) : result (loop_state nat) :=
  iterate (engine := view_engine) (generator := toy_generator) toy_env n
          toy_loop_state.

Definition toy_sampling_loop (fuel : nat) : outcome (loop_state nat) :=
  sampling_loop (engine := view_engine) (generator := toy_generator) toy_env fuel
                toy_loop_state.

(** The tensor bound for [t], and the heap after preparing it. *)
Definition prepare_input (t : Tensor) (h : heap) : Tensor * heap :=
  let t0 := detach t in
  let '(t1, h1) := if decide (dtype t0 = torch_int64) then type_int32 t0 h
                   else (t0, h) in
  contiguous t1 h1.

(** The binding the call works on: a new one, or the caller's, cleared. *)
Definition reset_binding (binding : option IOBinding) : IOBinding :=
  match binding with
  | None => io_binding
  | Some b => clear_binding_outputs (clear_binding_inputs b)
  end.

Definition output_registrations (device : string) (device_id : Z)
    (names : list string) : list bound_output :=
  (λ out_name, {| bo_name := out_name; bo_device_type := device;
                  bo_device_id := device_id |}) <$> names.

(** A call state whose only input is a bfloat16 tensor. *)
Definition bfloat16_input_tensor : Tensor :=
  {| dtype := torch_bfloat16; shape := [1%Z]; data_ptr := 1%N;
     is_contiguous := true; requires_grad := false |}.

Definition bfloat16_call_state : call_state :=
  {| cs_heap := toy_heap 0; cs_inputs := {[ "x" := bfloat16_input_tensor ]};
     cs_binding := None |}.

(** A node with two outputs, which the index rejects. *)
Definition split_model : ModelProto :=
  mk_model [mk_node "S" ["x"] ["a"; "b"]; mk_node "B" ["a"] ["y"]] ["x"] ["y"].

(* ===================================================================== *)
(** ** Session options, optimizer call and external data *)
(* ===================================================================== *)

Inductive ExecutionMode := ORT_SEQUENTIAL | ORT_PARALLEL.

Inductive GraphOptimizationLevel :=
| ORT_DISABLE_ALL | ORT_ENABLE_BASIC | ORT_ENABLE_EXTENDED | ORT_ENABLE_ALL.

(** [onnxruntime.SessionOptions]: the attributes the code writes. *)
Record SessionOptions := {
  so_graph_optimization_level : GraphOptimizationLevel;
  so_enable_profiling : bool;
  so_log_severity_level : Z;
  so_execution_mode : ExecutionMode;
  so_intra_op_num_threads : Z;
  so_inter_op_num_threads : Z
}.

(** [provider_to_use: Union[str, List]] *)
Inductive provider_arg :=
| ProviderStr (p : string)
| ProviderList (ps : list string).

(** [if isinstance(provider_to_use, str): provider_to_use = [provider_to_use]] *)
Definition providers_of (provider_to_use : provider_arg) : list string :=
  match provider_to_use with
  | ProviderStr p => [p]
  | ProviderList ps => ps
  end.

(** Lines 72-82 of [create_model_for_provider]: the options and the
    provider list handed to [InferenceSession]; [options] is what
    [SessionOptions()] returns. *)
Definition create_model_options (options : SessionOptions)
    (provider_to_use : provider_arg) (nb_threads nb_instances : Z)
    (optimization_level : GraphOptimizationLevel) (enable_profiling : bool)
    (log_severity : Z) : SessionOptions * list string :=
  let options :=
    {| so_graph_optimization_level := optimization_level;
       so_enable_profiling := enable_profiling;
       so_log_severity_level := log_severity;
       so_execution_mode := so_execution_mode options;
       so_intra_op_num_threads := so_intra_op_num_threads options;
       so_inter_op_num_threads := so_inter_op_num_threads options |} in
  let provider_to_use := providers_of provider_to_use in
  if decide (provider_to_use = ["CPUExecutionProvider"]) then
    ({| so_graph_optimization_level := so_graph_optimization_level options;
        so_enable_profiling := so_enable_profiling options;
        so_log_severity_level := so_log_severity_level options;
        so_execution_mode :=
          if decide (nb_instances ≤ 1)%Z then ORT_SEQUENTIAL else ORT_PARALLEL;
        so_intra_op_num_threads := nb_threads;
        so_inter_op_num_threads :=
          if decide (nb_instances > 1)%Z then nb_instances
          else so_inter_op_num_threads options |},
     provider_to_use)
  else (options, provider_to_use).

(** [onnxruntime.transformers.fusion_options.FusionOptions]: the model
    type it was built for and the two switches the code writes. *)
Record FusionOptions := {
  fo_model_type : string;
  fo_enable_gelu_approximation : bool;
  fo_enable_embed_layer_norm : bool
}.

(** The arguments of [optimizer.optimize_model], and whether the result
    is converted to float16 before it is saved. *)
Record optimize_call := {
  oc_model_type : string;
  oc_use_gpu : bool;
  oc_opt_level : Z;
  oc_num_heads : Z;
  oc_hidden_size : Z;
  oc_optimization_options : FusionOptions;
  oc_convert_float_to_float16 : bool
}.

(** Lines 107-125 of [optimize_onnx]. [new_fusion_options] is the
    constructor [FusionOptions(model_type=...)], [MODEL_TYPES] the keys
    of the optimizer's table of the same name. *)
Definition optimize_onnx (new_fusion_options : string → FusionOptions)
    (MODEL_TYPES : list string) (fp16 use_cuda : bool)
    (num_attention_heads hidden_size : Z) (architecture : string)
    : optimize_call :=
  let optimization_options := new_fusion_options architecture in
  let optimization_options :=
    {| fo_model_type := fo_model_type optimization_options;
       fo_enable_gelu_approximation := false;
       fo_enable_embed_layer_norm :=
         fo_enable_embed_layer_norm optimization_options |} in
  let optimization_options :=
    if decide (architecture = "distilbert") then
      {| fo_model_type := fo_model_type optimization_options;
         fo_enable_gelu_approximation :=
           fo_enable_gelu_approximation optimization_options;
         fo_enable_embed_layer_norm := false |}
    else optimization_options in
  let architecture :=
    if decide (architecture ∉ MODEL_TYPES) then "bert" else architecture in
  let opt_level := if decide (architecture = "bert") then 1%Z else 0%Z in
  {| oc_model_type := architecture; oc_use_gpu := use_cuda;
     oc_opt_level := opt_level; oc_num_heads := num_attention_heads;
     oc_hidden_size := hidden_size;
     oc_optimization_options := optimization_options;
     oc_convert_float_to_float16 := fp16 |}.

(** [for i in model.graph.initializer: if ...: return True]; [tp_external]
    is [i.HasField("data_location") and i.data_location == EXTERNAL]. *)
Fixpoint use_external_data_loop (initializer : list TensorProto) : bool :=
  match initializer with
  | [] => false
  | i :: rest => if tp_external i then true else use_external_data_loop rest
  end.

(** [model] is the model read from [path] without its external data. *)
Definition use_external_data (model : ModelProto) : bool :=
  use_external_data_loop (graph_initializer (graph model)).

(** A new [SessionOptions()] as onnxruntime documents it: sequential
    execution, thread counts 0 (the runtime chooses). *)
Definition default_options : SessionOptions :=
  {| so_graph_optimization_level := ORT_ENABLE_ALL; so_enable_profiling := false;
     so_log_severity_level := 2; so_execution_mode := ORT_SEQUENTIAL;
     so_intra_op_num_threads := 0; so_inter_op_num_threads := 0 |}.

(** A model with one weight kept in an external file. *)
Definition external_model : ModelProto :=
  {| ir_version := 8;
     graph := {| graph_node := [mk_node "A" ["x"; "w"] ["y"]];
                 graph_input := [ValueInfoProto_of_name "x"];
                 graph_output := [ValueInfoProto_of_name "y"];
                 graph_initializer := [{| tp_name := "w"; tp_external := true |}] |} |}.

(* ===================================================================== *)
(** * Properties *)
(* ===================================================================== *)

(** ** Graph I/O index *)

Lemma record_inputs_lookup nm ins (im : gmap string string) i :
  record_inputs nm ins im !! i = if decide (i ∈ ins) then Some nm else im !! i.
Proof.
  unfold record_inputs. revert im.
  induction ins as [|j ins IH]; intros im.
  - cbn [foldl]. destruct (decide (i ∈ [])) as [Hin|_]; [|done].
    by apply elem_of_nil in Hin.
  - cbn [foldl]. rewrite IH.
    destruct (decide (i ∈ ins)) as [Hin|Hnin].
    + rewrite decide_True; [done | set_solver].
    + destruct (decide (j = i)) as [->|Hne].
      * rewrite lookup_insert_eq, decide_True; [done | set_solver].
      * rewrite lookup_insert_ne by done.
        rewrite decide_False; [done |].
        intros [?|?]%elem_of_cons; congruence.
Qed.

Lemma last_named_cons (P : NodeProto → Prop) `{∀ n, Decision (P n)} n nodes before :
  last_named P (n :: nodes) before =
  last_named P nodes (if decide (P n) then Some (node_name n) else before).
Proof.
  unfold last_named. rewrite filter_cons.
  destruct (decide (P n)) as [Hp|Hp]; [|done].
  destruct (filter P nodes) as [|n' l] eqn:E; [done|].
  rewrite last_cons. simpl. by destruct (last (n' :: l)).
Qed.

Lemma io_mapping_loop_spec nodes (im om : gmap string string) :
  match io_mapping_loop nodes im om with
  | Ok (im', om') =>
      Forall one_output nodes
      ∧ (∀ o, om' !! o = last_named (λ n, o ∈ node_output n) nodes (om !! o))
      ∧ (∀ i, im' !! i = last_named (λ n, i ∈ node_input n) nodes (im !! i))
  | Raise e => e = AssertionError ∧ Exists (λ n, ¬ one_output n) nodes
  end.
Proof.
  revert im om. induction nodes as [|n nodes IH]; intros im om; simpl.
  - by repeat split.
  - destruct (node_output n) as [|o1 [|o2 outs]] eqn:Eout.
    + split; [done|]. apply Exists_cons_hd. unfold one_output. by rewrite Eout.
    + specialize (IH (record_inputs (node_name n) (node_input n) im)
                     (<[o1 := node_name n]> om)).
      destruct (io_mapping_loop nodes _ _) as [[im' om']|e].
      * destruct IH as (Hall & Hom & Him). split_and!.
        -- constructor; [|done]. unfold one_output. by rewrite Eout.
        -- intros o. rewrite Hom, last_named_cons, Eout. f_equal.
           destruct (decide (o ∈ [o1])) as [Hin|Hnin].
           ++ apply list_elem_of_singleton in Hin as ->. by rewrite lookup_insert_eq.
           ++ rewrite lookup_insert_ne; [done|]. set_solver.
        -- intros i. rewrite Him, last_named_cons. f_equal.
           apply record_inputs_lookup.
      * destruct IH as [-> Hex]. split; [done|]. by apply Exists_cons_tl.
    + split; [done|]. apply Exists_cons_hd. unfold one_output. rewrite Eout. simpl. lia.
Qed.


Lemma last_filter_exists {A} (P : A → Prop) `{∀ x, Decision (P x)} (l : list A) :
  (∃ x, x ∈ l ∧ P x) → ∃ x, last (filter P l) = Some x ∧ x ∈ l ∧ P x.
Proof.
  intros (x & Hx & Hp).
  assert (x ∈ filter P l) as Hin by (by apply list_elem_of_filter).
  destruct (last (filter P l)) as [y|] eqn:E.
  - exists y. split; [done|].
    apply last_Some_elem_of in E. by apply list_elem_of_filter in E as [??].
  - apply last_None in E. rewrite E in Hin. by apply elem_of_nil in Hin.
Qed.



(** ** Instrumented execution *)

Lemma collect_output_nodes_flat nodes :
  collect_output_nodes nodes =
  flat_map (λ n, ValueInfoProto_of_name <$> node_output n) nodes.
Proof.
  unfold collect_output_nodes.
  assert (∀ outs (acc : list ValueInfoProto),
            foldl (λ acc output_name, acc ++ [ValueInfoProto_of_name output_name])
                  acc outs = acc ++ (ValueInfoProto_of_name <$> outs)) as Hinner.
  { induction outs as [|o outs IH]; intros acc; simpl.
    - by rewrite app_nil_r.
    - rewrite IH. by rewrite <- app_assoc. }
  assert (∀ acc,
            foldl (λ output_nodes n,
                     foldl (λ acc output_name, acc ++ [ValueInfoProto_of_name output_name])
                           output_nodes (node_output n)) acc nodes
            = acc ++ flat_map (λ n, ValueInfoProto_of_name <$> node_output n) nodes)
    as Houter.
  { induction nodes as [|n nodes IH]; intros acc; simpl.
    - by rewrite app_nil_r.
    - rewrite IH, Hinner. by rewrite <- app_assoc. }
  apply (Houter []).
Qed.

Lemma pop_while_nonempty_nil {A} fuel (l : list A) :
  (length l ≤ fuel)%nat → pop_while_nonempty fuel l = [].
Proof.
  revert l. induction fuel as [|fuel IH]; intros l Hlen; simpl.
  - destruct l; [done | simpl in Hlen; lia].
  - destruct l as [|x l]; [done|].
    apply IH. unfold list_pop.
    rewrite removelast_firstn_len, length_take. simpl in *. lia.
Qed.

Lemma clear_output_nil out : clear_output out = [].
Proof. by apply pop_while_nonempty_nil. Qed.

(** C8. [add_output_nodes] returns a new model object whose graph outputs
    are one name-only entry per output of every node, in node order, and
    whose nodes, inputs, initializers and header are those of the
    original; the original object, and every other object of the store,
    is left as it was. *)
Theorem add_output_nodes_spec (σ : model_store) (model : ref) (m : ModelProto) :
  σ !! model = Some m →
  ∃ model' σ' m',
    add_output_nodes σ model = Some (model', σ')
    ∧ (model' ∉ dom σ)
    ∧ σ' !! model' = Some m'
    ∧ (∀ r, r ≠ model' → σ' !! r = σ !! r)
    ∧ σ' !! model = Some m
    ∧ graph_output (graph m') =
        flat_map (λ n, ValueInfoProto_of_name <$> node_output n)
                 (graph_node (graph m))
    ∧ graph_node (graph m') = graph_node (graph m)
    ∧ graph_input (graph m') = graph_input (graph m)
    ∧ graph_initializer (graph m') = graph_initializer (graph m)
    ∧ ir_version m' = ir_version m.
Proof.
  intros Hm. unfold add_output_nodes. rewrite Hm. simpl.
  set (model' := fresh (dom σ)).
  assert (model' ∉ dom σ) as Hfresh by apply is_fresh.
  assert (model' ≠ model) as Hne.
  { intros ->. apply Hfresh, elem_of_dom. by eexists. }
  rewrite lookup_insert_eq. simpl.
  eexists model', _, _. split_and!; [done | done | apply lookup_insert_eq | ..].
  - intros r Hr. by rewrite !lookup_insert_ne.
  - by rewrite !lookup_insert_ne.
  - simpl. by rewrite clear_output_nil, collect_output_nodes_flat.
  - done.
  - done.
  - done.
  - done.
Qed.

(** On [chain_model]: the copy exposes a and y, the original keeps y. *)
Lemma add_output_nodes_chain :
  ∃ model' σ' m',
    add_output_nodes {[ 1%positive := chain_model ]} 1%positive = Some (model', σ')
    ∧ σ' !! model' = Some m'
    ∧ σ' !! 1%positive = Some chain_model
    ∧ graph_output (graph m') = [ValueInfoProto_of_name "a"; ValueInfoProto_of_name "y"].
Proof.
  destruct (add_output_nodes_spec {[ 1%positive := chain_model ]} 1%positive chain_model)
    as (model' & σ' & m' & Hrun & _ & Hm' & _ & Horig & Hout & _).
  - reflexivity.
  - exists model', σ', m'. by rewrite Hout.
Defined.

(** ** Dependency propagation *)

Lemma children_of_outputs_spec skip (im : gmap string string) nm outs
    (mc0 mc : gmap string (list string)) :
  children_of_outputs skip im nm outs mc0 = Ok mc →
  ∀ k c, c ∈ default [] (mc !! k) ↔
         c ∈ default [] (mc0 !! k)
         ∨ (k = nm ∧ ∃ o, o ∈ outs ∧ (o ∉ skip) ∧ im !! o = Some c).
Proof.
  revert mc0. induction outs as [|o outs IH]; intros mc0 Hrun k c; simpl in Hrun.
  - injection Hrun as <-. set_solver.
  - destruct (decide (o ∈ skip)) as [Hskip|Hskip].
    + rewrite (IH _ Hrun). set_solver.
    + destruct (im !! o) as [child|] eqn:Eo; [|done].
      rewrite (IH _ Hrun). destruct (decide (k = nm)) as [->|Hne].
      * rewrite lookup_insert_eq. simpl. rewrite elem_of_app, list_elem_of_singleton.
        split.
        -- intros [[?| ->]|(_ & o' & ? & ? & ?)]; [by left | |].
           ++ right. split; [done|]. exists o. set_solver.
           ++ right. split; [done|]. exists o'. set_solver.
        -- intros [?|(_ & o' & [->|?]%elem_of_cons & ? & ?)].
           ++ by left; left.
           ++ left; right. congruence.
           ++ right. split; [done|]. by exists o'.
      * rewrite lookup_insert_ne by done. set_solver.
Qed.

Lemma build_map_children_spec skip (im : gmap string string) nodes
    (mc0 mc : gmap string (list string)) :
  build_map_children skip im nodes mc0 = Ok mc →
  ∀ k c, c ∈ default [] (mc !! k) ↔
         c ∈ default [] (mc0 !! k)
         ∨ ∃ node o, node ∈ nodes ∧ node_name node = k ∧ o ∈ node_output node
                     ∧ (o ∉ skip) ∧ im !! o = Some c.
Proof.
  revert mc0. induction nodes as [|n nodes IH]; intros mc0 Hrun k c; simpl in Hrun.
  - injection Hrun as <-. set_solver.
  - destruct (children_of_outputs skip im (node_name n) (node_output n) mc0)
      as [mc1|] eqn:E1; [|done].
    rewrite (IH _ Hrun), (children_of_outputs_spec _ _ _ _ _ _ E1).
    split.
    + intros [[?|(-> & o & ? & ? & ?)]|(node & o & ? & ? & ? & ? & ?)].
      * by left.
      * right. exists n, o. set_solver.
      * right. exists node, o. set_solver.
    + intros [?|(node & o & [->|?]%elem_of_cons & ? & ? & ? & ?)].
      * by left; left.
      * left; right. split; [done|]. by exists o.
      * right. by exists node, o.
Qed.

(** What the propagation step does add: the result is the kept list
    followed by nodes that [input_mapping] records as the consumer of a
    non-skipped output of a node whose name is in the kept list, as it
    stood before the step. Children of the added nodes are not followed. *)
Lemma propagate_children_single_pass onnx_model (im : gmap string string) keep r :
  propagate_children onnx_model im keep = Ok r →
  ∃ added, r = keep ++ added
    ∧ ∀ c, c ∈ added ↔
           ∃ k node o, k ∈ keep ∧ node ∈ graph_node (graph onnx_model)
                       ∧ node_name node = k ∧ o ∈ node_output node
                       ∧ (o ∉ nodes_to_skip (graph onnx_model)) ∧ im !! o = Some c.
Proof.
  unfold propagate_children.
  destruct (build_map_children _ _ _ _) as [mc|] eqn:E; [|done].
  intros [= <-]. eexists; split; [done|]. intros c.
  pose proof (build_map_children_spec _ _ _ _ _ E) as Hmc.
  unfold children_of_kept. rewrite list_elem_of_In, in_flat_map.
  split.
  - intros (k & Hk%list_elem_of_In & Hc%list_elem_of_In).
    specialize (Hmc k c). rewrite lookup_empty in Hmc. simpl in Hmc.
    assert (c ∈ default [] (mc !! k)) as Hc' by (destruct (mc !! k); done).
    apply Hmc in Hc' as [Hnil|(node & o & ?)]; [by apply elem_of_nil in Hnil|].
    exists k, node, o. tauto.
  - intros (k & node & o & Hk & Hrest). exists k.
    split; [by apply list_elem_of_In|]. apply list_elem_of_In.
    assert (c ∈ default [] (mc !! k)) as Hc'.
    { apply Hmc. right. exists node, o. tauto. }
    destruct (mc !! k); [done | by apply elem_of_nil in Hc'].
Qed.

(** C1, evaluation at the failing input. In [fanout_model] the output of
    A is consumed by B and by C. With A the only unsafe node, propagation
    returns A and C: B, a direct consumer of A's output, is left out,
    because [input_mapping] holds one consumer per tensor name. *)
Theorem propagate_children_misses_consumer :
  ∃ input_mapping output_mapping,
    get_io_to_node_mapping fanout_model = Ok (input_mapping, output_mapping)
    ∧ propagate_children fanout_model input_mapping ["A"] = Ok ["A"; "C"]
    ∧ mk_node "A" ["x"] ["a"] ∈ graph_node (graph fanout_model)
    ∧ mk_node "B" ["a"] ["b"] ∈ graph_node (graph fanout_model)
    ∧ "a" ∈ node_input (mk_node "B" ["a"] ["b"])
    ∧ ("a" ∉ nodes_to_skip (graph fanout_model))
    ∧ "B" ∉ ["A"; "C"].
Proof.
  eexists _, _. split_and!.
  - reflexivity.
  - vm_compute. reflexivity.
  - set_solver.
  - set_solver.
  - set_solver.
  - vm_compute. intros H. repeat (apply elem_of_cons in H as [H|H]; [discriminate|]).
    by apply elem_of_nil in H.
  - intros H. repeat (apply elem_of_cons in H as [H|H]; [discriminate|]).
    by apply elem_of_nil in H.
Qed.

(** ** Range violation detector *)

Lemma Qltb_lt x y : Qltb x y = true ↔ (x < y)%Q.
Proof.
  unfold Qltb. rewrite Qlt_alt. destruct (x ?= y)%Q; split; congruence.
Qed.

Lemma inject_Z_eq_0 z : (inject_Z z == 0)%Q ↔ z = 0%Z.
Proof. unfold Qeq. simpl. lia. Qed.

(** The constant [resolution] and the decimal literal 5.96e-08 draw the
    same line through the multiples of 2^-48, the grid on which float32
    values of that magnitude lie. *)
Lemma resolution_agrees_with_literal (k : Z) :
  (k # (2 ^ 48) < resolution)%Q ↔ (k # (2 ^ 48) < 596 # (10 ^ 10))%Q.
Proof.
  unfold resolution, Qlt. simpl Qnum. simpl Qden.
  change (Z.pos (2 ^ 48)) with 281474976710656%Z.
  change (Z.pos (10 ^ 10)) with 10000000000%Z. lia.
Qed.

Lemma exceeds_range_spec x :
  scalar_gt x max_float16 || scalar_lt x min_float16 = true ↔ exceeds_range x.
Proof.
  rewrite orb_true_iff.
  destruct x as [z| |[]|q]; cbn [scalar_lt scalar_gt exceeds_range negb];
    rewrite ?Qltb_lt; intuition congruence.
Qed.

Lemma tiny_nonzero_spec x :
  scalar_lt x resolution && scalar_gt x (Qopp resolution) && scalar_ne_0 x = true
  ↔ tiny_nonzero x.
Proof.
  rewrite !andb_true_iff.
  destruct x as [z| |[]|q]; cbn [scalar_lt scalar_gt scalar_ne_0 tiny_nonzero negb];
    rewrite ?Qltb_lt, ?negb_true_iff.
  - rewrite Z.eqb_neq, Qabs_Qlt_condition. tauto.
  - intuition congruence.
  - intuition congruence.
  - intuition congruence.
  - rewrite Qabs_Qlt_condition, <- not_true_iff_false, Qeq_bool_iff. tauto.
Qed.

Lemma out_of_fp16_spec data :
  out_of_fp16 data = true ↔ ∃ x, x ∈ data ∧ (exceeds_range x ∨ tiny_nonzero x).
Proof.
  unfold out_of_fp16, any. rewrite !orb_true_iff, !existsb_exists.
  setoid_rewrite <- exceeds_range_spec. setoid_rewrite <- tiny_nonzero_spec.
  setoid_rewrite orb_true_iff. setoid_rewrite list_elem_of_In.
  split.
  - intros [[(x & ? & ?)|(x & ? & ?)]|(x & ? & ?)]; exists x; tauto.
  - intros (x & ? & [[?|?]|?]); [left; left | left; right | right]; by exists x.
Qed.

#[global] Instance flagged_dec h kt : Decision (flagged h kt).
Proof.
  refine (cast_if (decide (dtype kt.2 = torch_float32
                           ∧ out_of_fp16 (tensor_data h kt.2) = true)));
    unfold flagged; rewrite <- out_of_fp16_spec; tauto.
Defined.

Lemma find_node_fp32_loop_spec (graph : gmap string string) h items keep :
  find_node_fp32_loop graph h items keep =
  match producers graph (filter (flagged h) items) with
  | Ok names => Ok (keep ++ names)
  | Raise e => Raise e
  end.
Proof.
  revert keep. induction items as [|[k t] items IH]; intros keep.
  - simpl. by rewrite app_nil_r.
  - cbn [find_node_fp32_loop]. rewrite filter_cons.
    destruct (decide (dtype t ≠ torch_float32)) as [Hty|Hty].
    + rewrite decide_False by (intros [? _]; done). apply IH.
    + apply dec_stable in Hty.
      destruct (out_of_fp16 (tensor_data h t)) eqn:Eout.
      * rewrite decide_True by (split; [done | by apply out_of_fp16_spec]).
        unfold producers. cbn [mapM]. simpl.
        destruct (graph !! k) as [n|]; [|done]. simpl.
        rewrite IH. unfold producers.
        destruct (mapM _ _); simpl; [|done]. by rewrite <- app_assoc.
      * rewrite decide_False; [apply IH|].
        intros [_ Hex%out_of_fp16_spec]. simpl in Hex. congruence.
Qed.

Lemma filter_ext_in {A} (P1 P2 : A → Prop) `{∀ x, Decision (P1 x)}
    `{∀ x, Decision (P2 x)} (l : list A) :
  (∀ x, x ∈ l → P1 x ↔ P2 x) → filter P1 l = filter P2 l.
Proof.
  induction l as [|x l IH]; intros Hext; [done|].
  rewrite !filter_cons, IH by (intros; apply Hext; set_solver).
  destruct (decide (P1 x)) as [H1|H1], (decide (P2 x)) as [H2|H2]; try done;
    exfalso; apply (Hext x) in H1 || apply (Hext x) in H2; set_solver.
Qed.

Lemma zero_or_in_range_safe x :
  zero_or_in_range x → ¬ exceeds_range x ∧ ¬ tiny_nonzero x.
Proof.
  assert (∀ q, (q == 0 ∨ resolution <= Qabs q <= max_float16)%Q →
               ¬ (max_float16 < q ∨ q < min_float16)%Q
               ∧ ¬ (¬ (q == 0)%Q ∧ (Qabs q < resolution)%Q)) as Hq.
  { intros q [Hz|[Hlo Hhi]].
    - split.
      + rewrite Hz. intros [H|H]; discriminate H.
      + tauto.
    - apply Qabs_Qle_condition in Hhi as [Hge Hle]. split.
      + intros [H|H].
        * by apply Qlt_not_le in H.
        * apply Qlt_not_le in H. by apply H.
      + intros [_ H]. by apply Qlt_not_le in H. }
  destruct x as [z| |[]|q]; cbn [zero_or_in_range exceeds_range tiny_nonzero];
    try tauto.
  - rewrite <- inject_Z_eq_0. apply Hq.
  - apply Hq.
Qed.

(** C3 (as amended). [find_node_fp32] returns, in the iteration order of
    [output_nodes], the entry of [graph] for each sampled tensor that is
    float32 and holds an element above [max_float16] or below
    [min_float16], or a non-zero element of magnitude below the constant
    [resolution] = 5.96e-08 (about 2^-24, the smallest positive float16,
    not its smallest normal value); it raises [KeyError] when such a
    tensor's name is not in [graph]. The contents of tensors of other
    types play no part, a tensor whose elements are all zero or of
    magnitude between [resolution] and [max_float16] is not reported, and
    the function only reads its arguments. *)
Theorem find_node_fp32_spec (graph : gmap string string)
    (output_nodes : list (string * Tensor)) (h : heap) :
  find_node_fp32 graph output_nodes h
    = producers graph (filter (flagged h) output_nodes)
  ∧ (∀ h' : heap,
       (∀ kt, kt ∈ output_nodes → dtype kt.2 = torch_float32 →
              tensor_data h' kt.2 = tensor_data h kt.2) →
       find_node_fp32 graph output_nodes h' = find_node_fp32 graph output_nodes h)
  ∧ (∀ kt, Forall zero_or_in_range (tensor_data h kt.2) → ¬ flagged h kt).
Proof.
  assert (∀ h0, find_node_fp32 graph output_nodes h0
                = producers graph (filter (flagged h0) output_nodes)) as Hspec.
  { intros h0. unfold find_node_fp32. rewrite find_node_fp32_loop_spec.
    by destruct (producers _ _). }
  split_and!.
  - apply Hspec.
  - intros h' Hsame. rewrite !Hspec. f_equal. apply filter_ext_in.
    intros kt Hin. unfold flagged.
    split; intros [Hty Hex]; (split; [done|]).
    + by rewrite <- (Hsame kt Hin Hty).
    + by rewrite (Hsame kt Hin Hty).
  - intros kt Hall (_ & x & Hx & Hbad).
    rewrite Forall_forall in Hall.
    destruct (zero_or_in_range_safe x (Hall x Hx)). tauto.
Qed.

(** C3, the claim as stated fails: 2^-15 is not zero and lies below the
    smallest normal float16, 2^-14 (and below float16's epsilon, 2^-10),
    yet the float32 tensor holding it is not reported, although its
    producer is in the mapping. *)
Lemma find_node_fp32_below_smallest_normal :
  dtype small_value_tensor = torch_float32
  ∧ (∃ q, SFin q ∈ tensor_data small_value_heap small_value_tensor
          ∧ ¬ (q == 0)%Q ∧ (Qabs q < float16_smallest_normal)%Q
          ∧ (Qabs q < float16_eps)%Q)
  ∧ ({[ "t" := "A" ]} : gmap string string) !! "t" = Some "A"
  ∧ find_node_fp32 {[ "t" := "A" ]} [("t", small_value_tensor)] small_value_heap
    = Ok [].
Proof.
  split_and!.
  - reflexivity.
  - exists (1 # (2 ^ 15))%Q. split_and!.
    + vm_compute. constructor.
    + intros H. discriminate H.
    + reflexivity.
    + reflexivity.
  - reflexivity.
  - vm_compute. reflexivity.
Qed.

(** ** Zero-copy inference bridge *)

Lemma bind_ok {A B} (m : M A) (f : A → M B) s b s' :
  (m ≫= f) s = (Ok b, s') → ∃ a s1, m s = (Ok a, s1) ∧ f a s1 = (Ok b, s').
Proof.
  unfold mbind, M_bind. destruct (m s) as [[a|e] s1]; [eauto | done].
Qed.


Section BridgeFacts.

Context {engine : Engine}.

(** C9. A [device] argument other than the strings "cpu" and "cuda"
    makes [inference_onnx_binding] raise [AssertionError] with the
    heap, the caller's inputs and the binding untouched, so before any
    binding or execution; for "cpu" and "cuda" both checks pass and the
    call is the binding-and-execution part. *)
Theorem inference_onnx_binding_device_check (model_onnx : InferenceSession)
    (device : pyobj) (device_id : Z) (clone_tensor : bool) (s : call_state) :
  (device ≠ PyStr "cpu" → device ≠ PyStr "cuda" →
     inference_onnx_binding model_onnx device device_id clone_tensor s = (Raise AssertionError, s))
  ∧ inference_onnx_binding model_onnx (PyStr "cpu") device_id clone_tensor s
    = bind_and_run model_onnx "cpu" device_id clone_tensor s
  ∧ inference_onnx_binding model_onnx (PyStr "cuda") device_id clone_tensor s
    = bind_and_run model_onnx "cuda" device_id clone_tensor s.
Proof.
  split_and!; [|done..].
  intros Hcpu Hcuda. destruct device as [d| |]; [|done..].
  unfold inference_onnx_binding.
  rewrite bool_decide_eq_false_2; [done|].
  intros [->|[->|Hnil%elem_of_nil]%elem_of_cons]%elem_of_cons; done.
Qed.

Lemma assert_ok b s u s' : assert b s = (Ok u, s') → b = true ∧ s' = s.
Proof. destruct b; [by intros [= <-] | done]. Qed.

Lemma get_state_bind {A} (f : call_state → M A) s : (get_state ≫= f) s = f s s.
Proof. reflexivity. Qed.











Lemma collect_outputs_view clone_tensor pairs outputs s r s' :
  collect_outputs clone_tensor pairs outputs s = (r, s') →
  bound_view s' = bound_view s.
Proof.
  revert outputs s. induction pairs as [|[n t] pairs IH]; intros outputs s Hrun.
  - by injection Hrun as _ <-.
  - cbn [collect_outputs] in Hrun. unfold mbind, M_bind in Hrun.
    destruct (on_heap_result _ s) as [[tensor|e] s1] eqn:E.
    + rewrite (IH _ _ Hrun). unfold on_heap_result in E.
      destruct (to_pytorch _ _ _) as [r0 h']. by simplify_eq.
    + unfold on_heap_result in E.
      destruct (to_pytorch _ _ _) as [r0 h']. by simplify_eq.
Qed.


(** Narrowing keeps the value modulo 2^32 and lands in the int32 range. *)
Lemma wrap_int32_spec z :
  (- 2 ^ 31 ≤ wrap_int32 z < 2 ^ 31)%Z
  ∧ (wrap_int32 z mod 2 ^ 32 = z mod 2 ^ 32)%Z
  ∧ ((- 2 ^ 31 ≤ z < 2 ^ 31)%Z → wrap_int32 z = z).
Proof.
  unfold wrap_int32.
  pose proof (Z.mod_pos_bound (z + 2 ^ 31) (2 ^ 32) ltac:(lia)) as Hb.
  split; [lia|]. split.
  - rewrite (Z.mod_eq (z + 2 ^ 31) (2 ^ 32)) by lia.
    replace (z + 2 ^ 31 - 2 ^ 32 * ((z + 2 ^ 31) / 2 ^ 32) - 2 ^ 31)%Z
      with (z + - ((z + 2 ^ 31) / 2 ^ 32) * 2 ^ 32)%Z by lia.
    apply Z_mod_plus_full.
  - intros Hz. rewrite Z.mod_small by lia. lia.
Qed.

(** [tensor.type(dtype=torch.int32)] writes the narrowed elements to new
    storage and leaves the storage in place untouched. *)
Lemma type_int32_spec t h t' h' :
  type_int32 t h = (t', h') →
  (data_ptr t' ∉ dom h)
  ∧ tensor_data h' t' = to_int32 <$> tensor_data h t
  ∧ ∀ a, a ∈ dom h → h' !! a = h !! a.
Proof.
  unfold type_int32, alloc. intros [= <- <-]. simpl.
  pose proof (is_fresh (dom h)) as Hfresh. split_and!; [done | |].
  - unfold tensor_data at 1. simpl. by rewrite lookup_insert_eq.
  - intros a Ha. rewrite lookup_insert_ne; [done|]. by intros <-.
Qed.


(** *** Tensor materialisation *)





End BridgeFacts.


(** The device "gpu" is refused and nothing has been touched. *)
Lemma inference_onnx_binding_device_check_gpu :
  inference_onnx_binding (engine := view_engine) (toy_session chain_model [])
    (PyStr "gpu") 0 true (toy_call_state 5 None)
  = (Raise AssertionError, toy_call_state 5 None).
Proof.
  apply (inference_onnx_binding_device_check (engine := view_engine)
           (toy_session chain_model []) (PyStr "gpu") 0 true (toy_call_state 5 None));
    discriminate.
Defined.




(** The ownership scenario on the small engine: on the accelerator a clone
    survives the second call and a view does not; on the host the outcome
    is that of [OrtValue.numpy()], whatever [clone_tensor]. *)
Lemma two_calls_scenario :
  two_calls view_engine "cuda" true = Some ([SFin (70000 # 1)], [SFin (70000 # 1)])
  ∧ two_calls view_engine "cuda" false = Some ([SFin (70000 # 1)], [SFin (5 # 1)])
  ∧ two_calls copy_engine "cpu" true = Some ([SFin (70000 # 1)], [SFin (70000 # 1)])
  ∧ two_calls copy_engine "cpu" false = Some ([SFin (70000 # 1)], [SFin (70000 # 1)])
  ∧ two_calls view_engine "cpu" false = Some ([SFin (70000 # 1)], [SFin (5 # 1)]).
Proof. repeat split; vm_compute; reflexivity. Qed.

(** ** Sampling loop *)

Section LoopFacts.

Context {engine : Engine} {G : Type} {generator : Generator G}.
Variable env : sampling_env.

Implicit Types st : loop_state G.

Lemma sample_keeps st keep_node_io st1 :
  sample env st = Ok (keep_node_io, st1) →
  keep_fp32_nodes st1 = keep_fp32_nodes st
  ∧ no_new_node_counter st1 = no_new_node_counter st.
Proof.
  unfold sample. destruct (get_input _ _) as [[inputs g'] h1].
  destruct (inference_onnx_binding _ _ _ _ _) as [[outputs|e] cs]; [|done].
  destruct (find_node_fp32 _ _ _) as [io|e]; [|done].
  by intros [= <- <-].
Qed.

(** One pass through the body: the names the detector reports and the
    list does not hold yet are appended; the counter is reset if there is
    one, incremented otherwise. *)
Lemma loop_body_spec st st' :
  loop_body env st = Ok st' →
  ∃ keep_node_io st1,
    sample env st = Ok (keep_node_io, st1)
    ∧ keep_fp32_nodes st' =
        keep_fp32_nodes st ++ nodes_to_add keep_node_io (keep_fp32_nodes st)
    ∧ no_new_node_counter st' =
        (if decide (nodes_to_add keep_node_io (keep_fp32_nodes st) = [])
         then no_new_node_counter st + 1 else 0)%Z.
Proof.
  unfold loop_body. destruct (sample env st) as [[io st1]|e] eqn:E; [|done].
  intros [= <-]. destruct (sample_keeps _ _ _ E) as [Hk Hc].
  exists io, st1. split; [done|]. unfold accumulate. simpl. rewrite Hk, Hc.
  split; [done|].
  destruct (nodes_to_add io (keep_fp32_nodes st)) as [|x l];
    repeat case_decide; simpl in *; done.
Qed.

Lemma loop_body_counter st st' :
  loop_body env st = Ok st' →
  (keep_fp32_nodes st' ≠ keep_fp32_nodes st → no_new_node_counter st' = 0%Z)
  ∧ (keep_fp32_nodes st' = keep_fp32_nodes st →
     no_new_node_counter st' = (no_new_node_counter st + 1)%Z).
Proof.
  intros (io & st1 & _ & Hk & Hc)%loop_body_spec. rewrite Hk, Hc.
  destruct (nodes_to_add io (keep_fp32_nodes st)) as [|x l] eqn:E.
  - rewrite app_nil_r, decide_True by done. tauto.
  - rewrite decide_False by done. split; [done|].
    intros Heq. rewrite <- (app_nil_r (keep_fp32_nodes st)) in Heq at 2.
    by apply app_inv_head in Heq.
Qed.

Lemma iterate_add n m st :
  iterate env (n + m) st =
  match iterate env n st with
  | Ok st1 => iterate env m st1
  | Raise e => Raise e
  end.
Proof.
  revert st. induction n as [|n IH]; intros st; simpl; [done|].
  destruct (loop_body env st); [apply IH | done].
Qed.

Lemma iterate_S_r n st :
  iterate env (S n) st =
  match iterate env n st with
  | Ok st1 => loop_body env st1
  | Raise e => Raise e
  end.
Proof.
  replace (S n) with (n + 1)%nat by lia. rewrite iterate_add.
  destruct (iterate env n st) as [st1|]; [|done]. simpl.
  by destruct (loop_body env st1).
Qed.

Lemma iterate_monotone n st st' :
  iterate env n st = Ok st' →
  ∃ added, keep_fp32_nodes st' = keep_fp32_nodes st ++ added
           ∧ ∀ x, x ∈ added → x ∉ keep_fp32_nodes st.
Proof.
  revert st. induction n as [|n IH]; intros st Hrun; simpl in Hrun.
  - injection Hrun as <-. exists []. rewrite app_nil_r. split; [done|].
    intros x Hx. by apply elem_of_nil in Hx.
  - destruct (loop_body env st) as [st1|] eqn:E; [|done].
    apply loop_body_spec in E as (io & _ & _ & Hk & _).
    destruct (IH _ Hrun) as (added & Hk' & Hnew).
    exists (nodes_to_add io (keep_fp32_nodes st) ++ added).
    rewrite Hk', Hk, <- app_assoc. split; [done|].
    intros x [Hx|Hx]%elem_of_app.
    + unfold nodes_to_add in Hx. by apply list_elem_of_filter in Hx as [? _].
    + intros Hin. apply (Hnew x Hx). rewrite Hk. set_solver.
Qed.

(** The loop returns after [n] passes exactly when the counter has
    reached [early_stop] then and at no earlier test. *)
Lemma sampling_loop_finished fuel st st' :
  sampling_loop env fuel st = Finished st' →
  ∃ n, (n < fuel)%nat ∧ iterate env n st = Ok st'
       ∧ (early_stop env ≤ no_new_node_counter st')%Z
       ∧ ∀ k, (k < n)%nat →
           ∃ stk, iterate env k st = Ok stk ∧ (no_new_node_counter stk < early_stop env)%Z.
Proof.
  revert st. induction fuel as [|fuel IH]; intros st Hrun; [done|].
  cbn [sampling_loop] in Hrun.
  destruct (decide (no_new_node_counter st < early_stop env)%Z) as [Hlt|Hge].
  - destruct (loop_body env st) as [st1|] eqn:E; [|done].
    destruct (IH _ Hrun) as (n & Hn & Hit & Hstop & Hbefore).
    exists (S n). split_and!; [lia | by simpl; rewrite E | done |].
    intros [|k] Hk; [by exists st|].
    simpl. rewrite E. apply Hbefore. lia.
  - injection Hrun as <-. exists 0%nat. split_and!; [lia | done | lia |].
    intros k Hk. lia.
Qed.

Lemma sampling_loop_complete n st st' fuel :
  iterate env n st = Ok st' →
  (early_stop env ≤ no_new_node_counter st')%Z →
  (∀ k, (k < n)%nat →
     ∃ stk, iterate env k st = Ok stk ∧ (no_new_node_counter stk < early_stop env)%Z) →
  (n < fuel)%nat →
  sampling_loop env fuel st = Finished st'.
Proof.
  revert st fuel. induction n as [|n IH]; intros st fuel Hit Hstop Hbefore Hfuel.
  - injection Hit as <-. destruct fuel as [|fuel]; [lia|].
    cbn [sampling_loop]. by rewrite decide_False by lia.
  - destruct fuel as [|fuel]; [lia|]. cbn [sampling_loop].
    destruct (Hbefore 0%nat) as (st0 & [= <-] & Hlt); [lia|].
    rewrite decide_True by done. simpl in Hit.
    destruct (loop_body env st) as [st1|] eqn:E; [|done].
    apply IH; [done | done | | lia].
    intros k Hk. destruct (Hbefore (S k)) as (stk & Hitk & Hltk); [lia|].
    simpl in Hitk. rewrite E in Hitk. eauto.
Qed.

(** Passes that discover nothing: the list stays, the counter counts. *)
Lemma stall_run m st :
  (∀ k stk, (k < m)%nat → iterate env k st = Ok stk →
     ∃ keep_node_io st1, sample env stk = Ok (keep_node_io, st1)
                         ∧ nodes_to_add keep_node_io (keep_fp32_nodes stk) = []) →
  ∀ k, (k ≤ m)%nat →
    ∃ stk, iterate env k st = Ok stk
           ∧ keep_fp32_nodes stk = keep_fp32_nodes st
           ∧ no_new_node_counter stk = (no_new_node_counter st + Z.of_nat k)%Z.
Proof.
  intros Hstall k. induction k as [|k IH]; intros Hk.
  - exists st. split_and!; [done | done | lia].
  - destruct IH as (stk & Hit & Hkeep & Hcount); [lia|].
    destruct (Hstall k stk) as (io & st1 & Hsample & Hnone); [lia | done |].
    rewrite iterate_S_r, Hit. unfold loop_body. rewrite Hsample.
    eexists. split; [done|].
    destruct (sample_keeps _ _ _ Hsample) as [Hk1 Hc1].
    unfold accumulate. simpl. rewrite Hk1, Hc1, Hnone, app_nil_r.
    rewrite decide_True by done. split; [done | lia].
Qed.

(** Started at zero, the counter is the number of trailing passes that
    left the list as it was. *)
Lemma counter_trailing n st st' :
  no_new_node_counter st = 0%Z →
  iterate env n st = Ok st' →
  ∃ c st_mid, no_new_node_counter st' = Z.of_nat c ∧ (c ≤ n)%nat
              ∧ iterate env (n - c) st = Ok st_mid
              ∧ no_new_node_counter st_mid = 0%Z
              ∧ keep_fp32_nodes st_mid = keep_fp32_nodes st'.
Proof.
  intros H0. revert st'. induction n as [|n IH]; intros st' Hit.
  - injection Hit as <-. exists 0%nat, st. split_and!; [done | lia | done..].
  - rewrite iterate_S_r in Hit.
    destruct (iterate env n st) as [stn|] eqn:En; [|done].
    destruct (IH _ eq_refl) as (c & st_mid & Hc & Hle & Hmid & Hmid0 & Hkeep).
    pose proof (loop_body_counter _ _ Hit) as [Hreset Hincr].
    destruct (decide (keep_fp32_nodes st' = keep_fp32_nodes stn)) as [Heq|Hne].
    + exists (S c), st_mid. rewrite (Hincr Heq), Hc.
      replace (S n - S c)%nat with (n - c)%nat by lia.
      split_and!; [lia | lia | done | done | congruence].
    + exists 0%nat, st'. rewrite (Hreset Hne).
      replace (S n - 0)%nat with (S n) by lia.
      split_and!; [done | lia | | done | done].
      by rewrite iterate_S_r, En.
Qed.

Lemma nodes_to_add_nil keep_node_io keep :
  nodes_to_add keep_node_io keep = [] ↔ ∀ x, x ∈ keep_node_io → x ∈ keep.
Proof.
  unfold nodes_to_add. split.
  - intros Hnil x Hx. destruct (decide (x ∈ keep)) as [|Hnot]; [done|].
    assert (x ∈ filter (λ n, n ∉ keep) keep_node_io) as Hin
      by (by apply list_elem_of_filter).
    rewrite Hnil in Hin. by apply elem_of_nil in Hin.
  - intros Hall. apply elem_of_nil_inv. intros x [Hnot Hx]%list_elem_of_filter.
    by apply Hnot, Hall.
Qed.

(** C5. Across the passes of the sampling loop the list of unsafe nodes
    only grows at its end: what it holds after [n] passes is a prefix of
    what it holds after any later pass, the names added were not in it,
    and nothing is removed; one pass appends exactly the reported names
    that the list does not hold yet. *)
Theorem keep_fp32_nodes_append_only st (n m : nat) st_n st_m :
  iterate env n st = Ok st_n →
  iterate env (n + m) st = Ok st_m →
  (∃ added, keep_fp32_nodes st_m = keep_fp32_nodes st_n ++ added
            ∧ ∀ x, x ∈ added → x ∉ keep_fp32_nodes st_n)
  ∧ (∀ x, x ∈ keep_fp32_nodes st_n → x ∈ keep_fp32_nodes st_m)
  ∧ (∀ st_next, loop_body env st_n = Ok st_next →
       ∃ keep_node_io st1,
         sample env st_n = Ok (keep_node_io, st1)
         ∧ keep_fp32_nodes st_next =
             keep_fp32_nodes st_n ++ nodes_to_add keep_node_io (keep_fp32_nodes st_n)
         ∧ ∀ x, x ∈ nodes_to_add keep_node_io (keep_fp32_nodes st_n)
                ↔ x ∈ keep_node_io ∧ x ∉ keep_fp32_nodes st_n).
Proof.
  intros Hn Hm. rewrite iterate_add, Hn in Hm.
  destruct (iterate_monotone _ _ _ Hm) as (added & Hk & Hnew).
  split_and!.
  - by exists added.
  - intros x Hx. rewrite Hk. set_solver.
  - intros st_next (io & st1 & Hs & Hk' & _)%loop_body_spec.
    exists io, st1. split_and!; [done..|].
    intros x. unfold nodes_to_add. rewrite list_elem_of_filter. tauto.
Qed.

(** C4. From a state whose stall counter is zero, with a non-negative
    threshold:
    - the loop returns only when the counter equals [early_stop], after a
      run of [early_stop] consecutive passes that left the list as it was,
      and it has not met that condition at any earlier test;
    - a pass that adds a name sets the counter to zero, a pass that adds
      none increments it;
    - once the counter is zero after pass [n], if the next [early_stop]
      passes report no name outside the list, the loop makes exactly
      these [early_stop] further passes and returns, given fuel for them. *)
Theorem sampling_loop_stops_on_stall st :
  no_new_node_counter st = 0%Z →
  (0 ≤ early_stop env)%Z →
  (∀ fuel st',
     sampling_loop env fuel st = Finished st' →
     ∃ n st_mid,
       (n < fuel)%nat ∧ iterate env n st = Ok st'
       ∧ no_new_node_counter st' = early_stop env
       ∧ (Z.to_nat (early_stop env) ≤ n)%nat
       ∧ iterate env (n - Z.to_nat (early_stop env)) st = Ok st_mid
       ∧ no_new_node_counter st_mid = 0%Z
       ∧ keep_fp32_nodes st_mid = keep_fp32_nodes st'
       ∧ ∀ k, (k < n)%nat →
           ∃ stk, iterate env k st = Ok stk ∧ (no_new_node_counter stk < early_stop env)%Z)
  ∧ (∀ st1 st2,
       loop_body env st1 = Ok st2 →
       (keep_fp32_nodes st2 ≠ keep_fp32_nodes st1 → no_new_node_counter st2 = 0%Z)
       ∧ (keep_fp32_nodes st2 = keep_fp32_nodes st1 →
          no_new_node_counter st2 = (no_new_node_counter st1 + 1)%Z))
  ∧ (∀ n st_n,
       iterate env n st = Ok st_n →
       no_new_node_counter st_n = 0%Z →
       (∀ k, (k < n)%nat →
          ∃ stk, iterate env k st = Ok stk ∧ (no_new_node_counter stk < early_stop env)%Z) →
       (∀ k stk, (k < Z.to_nat (early_stop env))%nat → iterate env k st_n = Ok stk →
          ∃ keep_node_io st1,
            sample env stk = Ok (keep_node_io, st1)
            ∧ ∀ x, x ∈ keep_node_io → x ∈ keep_fp32_nodes stk) →
       ∃ st',
         iterate env (Z.to_nat (early_stop env)) st_n = Ok st'
         ∧ keep_fp32_nodes st' = keep_fp32_nodes st_n
         ∧ no_new_node_counter st' = early_stop env
         ∧ (∀ k, (k < Z.to_nat (early_stop env))%nat →
              ∃ stk, iterate env k st_n = Ok stk
                     ∧ (no_new_node_counter stk < early_stop env)%Z)
         ∧ ∀ fuel, (n + Z.to_nat (early_stop env) < fuel)%nat →
             sampling_loop env fuel st = Finished st').
Proof.
  intros H0 Hes. split_and!.
  - intros fuel st' (n & Hn & Hit & Hstop & Hbefore)%sampling_loop_finished.
    assert (no_new_node_counter st' = early_stop env) as Hexact.
    { destruct n as [|n].
      - injection Hit as <-. lia.
      - destruct (Hbefore n) as (stn & Hitn & Hlt); [lia|].
        rewrite iterate_S_r, Hitn in Hit.
        apply loop_body_spec in Hit as (io & _ & _ & _ & Hc).
        case_decide; lia. }
    destruct (counter_trailing _ _ _ H0 Hit) as (c & st_mid & Hc & Hle & Hmid & Hmid0 & Hk).
    assert (c = Z.to_nat (early_stop env)) as -> by lia.
    exists n, st_mid. split_and!; done.
  - apply loop_body_counter.
  - intros n st_n Hit Hn0 Hbefore Hstall.
    assert (∀ k stk, (k < Z.to_nat (early_stop env))%nat → iterate env k st_n = Ok stk →
              ∃ keep_node_io st1,
                sample env stk = Ok (keep_node_io, st1)
                ∧ nodes_to_add keep_node_io (keep_fp32_nodes stk) = []) as Hnone.
    { intros k stk Hk Hitk.
      destruct (Hstall k stk Hk Hitk) as (io & st1 & Hs & Hin).
      exists io, st1. split; [done|]. by apply nodes_to_add_nil. }
    pose proof (stall_run (Z.to_nat (early_stop env)) st_n Hnone) as Hrun.
    destruct (Hrun (Z.to_nat (early_stop env))) as (st' & Hit' & Hk' & Hc'); [lia|].
    assert (∀ k, (k < Z.to_nat (early_stop env))%nat →
              ∃ stk, iterate env k st_n = Ok stk
                     ∧ (no_new_node_counter stk < early_stop env)%Z) as Hduring.
    { intros k Hk. destruct (Hrun k) as (stk & Hitk & _ & Hck); [lia|].
      exists stk. split; [done|]. lia. }
    exists st'. split_and!; [done | done | lia | done |].
    intros fuel Hfuel.
    apply (sampling_loop_complete (n + Z.to_nat (early_stop env))); [| lia | | done].
    + by rewrite iterate_add, Hit.
    + intros k Hk. destruct (decide (k < n)%nat) as [Hlt|Hge]; [by apply Hbefore|].
      replace k with (n + (k - n))%nat by lia. rewrite iterate_add, Hit.
      apply Hduring. lia.
Qed.

End LoopFacts.

(** On the small engine what the list holds after one pass is still there
    after three. *)
Lemma keep_fp32_nodes_append_only_toy :
  ∃ st1 st3,
    toy_iterate 1 = Ok st1 ∧ toy_iterate 3 = Ok st3
    ∧ keep_fp32_nodes st1 = ["A"; "B"]
    ∧ ∀ x, x ∈ keep_fp32_nodes st1 → x ∈ keep_fp32_nodes st3.
Proof.
  eassert (toy_iterate 1 = Ok _) as H1 by (vm_compute; reflexivity).
  eassert (toy_iterate 3 = Ok _) as H3 by (vm_compute; reflexivity).
  eexists _, _. split; [exact H1|]. split; [exact H3|]. split; [reflexivity|].
  unfold toy_iterate in H1, H3.
  apply (keep_fp32_nodes_append_only toy_env _ 1 2 _ _ H1 H3).
Defined.

(** The constant generator with a threshold of 3: the first pass finds A
    and B, the next three find nothing new, and the loop returns after
    these three. *)
Lemma sampling_loop_stops_on_stall_toy :
  ∃ st1 st',
    toy_iterate 1 = Ok st1
    ∧ keep_fp32_nodes st1 = ["A"; "B"]
    ∧ toy_iterate (1 + 3) = Ok st'
    ∧ keep_fp32_nodes st' = keep_fp32_nodes st1
    ∧ ∀ fuel, (4 < fuel)%nat → toy_sampling_loop fuel = Finished st'.
Proof.
  eassert (toy_iterate 1 = Ok _) as H1 by (vm_compute; reflexivity).
  destruct (sampling_loop_stops_on_stall (engine := view_engine)
              (generator := toy_generator) toy_env toy_loop_state)
    as (_ & _ & Hstall); [reflexivity | simpl; lia |].
  destruct (Hstall 1%nat _ H1) as (st' & Hit & Hkeep & _ & _ & Hloop).
  - reflexivity.
  - intros k Hk. assert (k = 0%nat) as -> by lia.
    eexists. split; [reflexivity|]. simpl. lia.
  - intros k stk Hk Hitk.
    destruct k as [|[|[|k]]]; [| | |simpl in Hk; lia];
      vm_compute in Hitk; injection Hitk as <-;
      (eexists _, _; split; [vm_compute; reflexivity|]); intros x Hx; exact Hx.
  - eexists _, st'. split; [exact H1|]. split; [reflexivity|].
    split; [|split; [exact Hkeep | exact Hloop]].
    unfold toy_iterate. rewrite iterate_add. unfold toy_iterate in H1.
    rewrite H1. exact Hit.
Defined.

(** ** Repeated names in the result *)

(** A name already in the list that is also recorded as a child of a
    listed node occurs twice after propagation. *)
Lemma propagate_children_repeats onnx_model (im : gmap string string) keep r k node o c :
  propagate_children onnx_model im keep = Ok r →
  k ∈ keep → node ∈ graph_node (graph onnx_model) → node_name node = k →
  o ∈ node_output node → o ∉ nodes_to_skip (graph onnx_model) →
  im !! o = Some c → c ∈ keep →
  ¬ NoDup r.
Proof.
  intros (added & -> & Hadded)%propagate_children_single_pass Hk Hnode Hname Ho Hskip
         Him Hc Hnodup.
  apply NoDup_app in Hnodup as (_ & Hdisj & _).
  apply (Hdisj c Hc), Hadded. by exists k, node, o.
Qed.

(** C10. Some runs of [get_keep_fp32_nodes] return a list with a repeated
    name. On [chain_model] both A and its consumer B are detected, the
    loop leaves the duplicate-free list A, B, and propagation appends B
    again. On [join_model], with the output of C kept in range, A and B
    are detected and C, the child of both, is appended twice. *)
Theorem get_keep_fp32_nodes_repeats_names :
  (∃ st, toy_sampling_loop 10 = Finished st ∧ keep_fp32_nodes st = ["A"; "B"]
         ∧ NoDup (keep_fp32_nodes st))
  ∧ get_keep_fp32_nodes (engine := view_engine) (generator := toy_generator)
      10 chain_model 0%nat 3 "cpu" (toy_heap 70000)
    = Finished ["A"; "B"; "B"]
  ∧ get_keep_fp32_nodes (engine := quiet_engine) (generator := toy_generator)
      10 join_model 0%nat 3 "cpu" (toy_heap 70000)
    = Finished ["A"; "B"; "C"; "C"]
  ∧ ¬ NoDup ["A"; "B"; "B"]
  ∧ ¬ NoDup ["A"; "B"; "C"; "C"].
Proof.
  split_and!.
  - eexists. split; [vm_compute; reflexivity|]. split; [reflexivity|].
    simpl. apply NoDup_cons. split; [|apply NoDup_singleton].
    intros [=]%list_elem_of_singleton.
  - vm_compute. reflexivity.
  - vm_compute. reflexivity.
  - intros Hnd. apply NoDup_cons in Hnd as [_ Hnd].
    apply NoDup_cons in Hnd as [Hnot _]. apply Hnot. constructor.
  - intros Hnd. apply NoDup_cons in Hnd as [_ Hnd].
    apply NoDup_cons in Hnd as [_ Hnd].
    apply NoDup_cons in Hnd as [Hnot _]. apply Hnot. constructor.
Qed.

(* ===================================================================== *)
(** * Further properties *)
(* ===================================================================== *)

(** ** Graph I/O index and instrumented copy *)

Lemma last_filter_Some {A} (P : A → Prop) `{∀ x, Decision (P x)} (l : list A) x :
  last (filter P l) = Some x → x ∈ l ∧ P x.
Proof.
  intros Hlast%last_Some_elem_of. by apply list_elem_of_filter in Hlast as [??].
Qed.

Lemma last_filter_None {A} (P : A → Prop) `{∀ x, Decision (P x)} (l : list A) :
  last (filter P l) = None → ∀ x, x ∈ l → ¬ P x.
Proof.
  intros Hnil%last_None x Hx Hp.
  assert (x ∈ filter P l) as Hin by (by apply list_elem_of_filter).
  rewrite Hnil in Hin. by apply elem_of_nil in Hin.
Qed.

(** X1. The keys of the two dicts [get_io_to_node_mapping] returns are
    exactly the tensor names some node produces, respectively consumes,
    and every value is the name of a node of the graph that has the key
    as its output, respectively among its inputs. *)
Theorem get_io_to_node_mapping_entries (onnx_model : ModelProto)
    (input_mapping output_mapping : gmap string string) :
  get_io_to_node_mapping onnx_model = Ok (input_mapping, output_mapping) →
  let nodes := graph_node (graph onnx_model) in
  (∀ o, is_Some (output_mapping !! o) ↔ ∃ n, n ∈ nodes ∧ o ∈ node_output n)
  ∧ (∀ i, is_Some (input_mapping !! i) ↔ ∃ n, n ∈ nodes ∧ i ∈ node_input n)
  ∧ (∀ o nm, output_mapping !! o = Some nm →
       ∃ n, n ∈ nodes ∧ node_name n = nm ∧ node_output n = [o])
  ∧ (∀ i nm, input_mapping !! i = Some nm →
       ∃ n, n ∈ nodes ∧ node_name n = nm ∧ i ∈ node_input n).
Proof.
  intros Hrun nodes. unfold get_io_to_node_mapping in Hrun. fold nodes in Hrun.
  pose proof (io_mapping_loop_spec nodes ∅ ∅) as Hspec. rewrite Hrun in Hspec.
  destruct Hspec as (Hall & Hom & Him).
  setoid_rewrite lookup_empty in Hom. setoid_rewrite lookup_empty in Him.
  assert (∀ (P : NodeProto → Prop) `{∀ n, Decision (P n)},
            is_Some (last_named P nodes None) ↔ ∃ n, n ∈ nodes ∧ P n) as Hkeys.
  { intros P ?. unfold last_named.
    destruct (last (filter P nodes)) as [n|] eqn:E.
    - apply last_filter_Some in E. split; [by exists n | by eexists].
    - split; [by intros [? ?] |].
      intros (n & Hn & Hp). by destruct (last_filter_None _ _ E n Hn). }
  split_and!.
  - intros o. rewrite Hom. apply Hkeys.
  - intros i. rewrite Him. apply Hkeys.
  - intros o nm. rewrite Hom. unfold last_named.
    destruct (last (filter _ nodes)) as [n|] eqn:E; [|done].
    intros [= <-]. apply last_filter_Some in E as [Hn Ho].
    exists n. split_and!; [done..|].
    rewrite Forall_forall in Hall. specialize (Hall n Hn). unfold one_output in Hall.
    destruct (node_output n) as [|o1 [|o2 outs]]; simpl in Hall; try lia.
    by apply list_elem_of_singleton in Ho as ->.
  - intros i nm. rewrite Him. unfold last_named.
    destruct (last (filter _ nodes)) as [n|] eqn:E; [|done].
    intros [= <-]. apply last_filter_Some in E as [Hn Hi]. by exists n.
Qed.

(** On [fanout_model] the tensor a has an entry, which names a consumer. *)
Lemma get_io_to_node_mapping_entries_fanout :
  ∃ input_mapping output_mapping n,
    get_io_to_node_mapping fanout_model = Ok (input_mapping, output_mapping)
    ∧ n ∈ graph_node (graph fanout_model)
    ∧ input_mapping !! "a" = Some (node_name n) ∧ "a" ∈ node_input n.
Proof.
  eassert (get_io_to_node_mapping fanout_model = Ok (_, _)) as Hrun by reflexivity.
  destruct (get_io_to_node_mapping_entries _ _ _ Hrun) as (_ & _ & _ & Hin).
  destruct (Hin "a" "C") as (n & Hn & Hname & Ha); [vm_compute; reflexivity|].
  eexists _, _, n. split; [exact Hrun|]. rewrite Hname. split; [exact Hn|].
  split; [vm_compute; reflexivity | exact Ha].
Defined.

(** What [add_output_nodes] computes, in one equation. *)
Lemma add_output_nodes_eq (σ : model_store) (model : ref) (m : ModelProto) :
  σ !! model = Some m →
  add_output_nodes σ model =
  Some (fresh (dom σ),
        <[fresh (dom σ) :=
            set_graph_output m
              (flat_map (λ n, ValueInfoProto_of_name <$> node_output n)
                        (graph_node (graph m)))]> σ).
Proof.
  intros Hm. unfold add_output_nodes. rewrite Hm. simpl.
  rewrite lookup_insert_eq. simpl.
  rewrite clear_output_nil, collect_output_nodes_flat, !insert_insert_eq.
  reflexivity.
Qed.

(** X2. The index does not look at the graph-level outputs: on the copy
    made by [add_output_nodes] it is the index of the original model. *)
Theorem get_io_to_node_mapping_instrumented (σ σ' : model_store) (model model' : ref)
    (m : ModelProto) :
  σ !! model = Some m →
  add_output_nodes σ model = Some (model', σ') →
  ∃ m', σ' !! model' = Some m'
        ∧ get_io_to_node_mapping m' = get_io_to_node_mapping m.
Proof.
  intros Hm Hadd. rewrite (add_output_nodes_eq _ _ _ Hm) in Hadd.
  injection Hadd as <- <-. eexists. split; [apply lookup_insert_eq | reflexivity].
Qed.

Lemma get_io_to_node_mapping_instrumented_chain :
  ∃ model' σ' m',
    add_output_nodes {[ 1%positive := chain_model ]} 1%positive = Some (model', σ')
    ∧ σ' !! model' = Some m'
    ∧ get_io_to_node_mapping m' = get_io_to_node_mapping chain_model.
Proof.
  eassert (add_output_nodes {[ 1%positive := chain_model ]} 1%positive = Some (_, _))
    as Hadd by (vm_compute; reflexivity).
  destruct (get_io_to_node_mapping_instrumented {[ 1%positive := chain_model ]}
              _ 1%positive _ chain_model (lookup_singleton_eq _ _) Hadd)
    as (m' & Hm' & Heq).
  eexists _, _, m'. split; [exact Hadd|]. split; [exact Hm' | exact Heq].
Defined.

(** X3. Instrumenting an instrumented copy changes nothing: the second
    copy has the content of the first. *)
Theorem add_output_nodes_idempotent (σ σ1 σ2 : model_store) (model r1 r2 : ref)
    (m : ModelProto) :
  σ !! model = Some m →
  add_output_nodes σ model = Some (r1, σ1) →
  add_output_nodes σ1 r1 = Some (r2, σ2) →
  r2 ≠ r1 ∧ σ2 !! r2 = σ1 !! r1 ∧ σ2 !! r1 = σ1 !! r1 ∧ σ2 !! model = Some m.
Proof.
  intros Hm H1 H2. rewrite (add_output_nodes_eq _ _ _ Hm) in H1.
  injection H1 as <- <-.
  set (m1 := set_graph_output m _) in *.
  assert (<[fresh (dom σ) := m1]> σ !! fresh (dom σ) = Some m1) as Hm1
    by apply lookup_insert_eq.
  rewrite (add_output_nodes_eq _ _ _ Hm1) in H2. injection H2 as <- <-.
  set (σ1 := <[fresh (dom σ) := m1]> σ) in *.
  assert (fresh (dom σ1) ≠ fresh (dom σ)) as Hne.
  { intros Heq. apply (is_fresh (dom σ1)). rewrite Heq.
    apply elem_of_dom. by eexists. }
  assert (fresh (dom σ) ≠ model) as Hne'.
  { intros Heq. apply (is_fresh (dom σ)). rewrite Heq.
    apply elem_of_dom. by eexists. }
  split_and!.
  - done.
  - rewrite lookup_insert_eq, Hm1. reflexivity.
  - by rewrite lookup_insert_ne.
  - rewrite lookup_insert_ne.
    + unfold σ1. by rewrite lookup_insert_ne.
    + intros Heq. apply (is_fresh (dom σ1)). rewrite Heq.
      apply elem_of_dom. unfold σ1. rewrite lookup_insert_ne by done. by eexists.
Qed.

Lemma add_output_nodes_idempotent_chain :
  ∃ r1 σ1 r2 σ2,
    add_output_nodes {[ 1%positive := chain_model ]} 1%positive = Some (r1, σ1)
    ∧ add_output_nodes σ1 r1 = Some (r2, σ2)
    ∧ σ2 !! r2 = σ1 !! r1.
Proof.
  pose proof (add_output_nodes_eq {[ 1%positive := chain_model ]} 1%positive
                chain_model (lookup_singleton_eq _ _)) as H1.
  pose proof (add_output_nodes_eq _ _ _
                (lookup_insert_eq ({[ 1%positive := chain_model ]} : model_store)
                   (fresh (dom ({[ 1%positive := chain_model ]} : model_store)))
                   (set_graph_output chain_model
                      (flat_map (λ n, ValueInfoProto_of_name <$> node_output n)
                                (graph_node (graph chain_model)))))) as H2.
  destruct (add_output_nodes_idempotent _ _ _ _ _ _ chain_model
              (lookup_singleton_eq _ _) H1 H2) as (_ & Heq & _).
  eexists _, _, _, _. split; [exact H1|]. split; [exact H2 | exact Heq].
Defined.

(** X4. For a graph the index accepts, the instrumented copy declares one
    graph output per node, in node order, and each of these names has an
    entry in [output_mapping]: the detector's lookup [graph[k]] cannot
    fail on the outputs of the instrumented model. *)
Theorem instrumented_outputs_indexed (σ σ' : model_store) (model model' : ref)
    (m : ModelProto) (input_mapping output_mapping : gmap string string) :
  σ !! model = Some m →
  get_io_to_node_mapping m = Ok (input_mapping, output_mapping) →
  add_output_nodes σ model = Some (model', σ') →
  ∃ m', σ' !! model' = Some m'
    ∧ length (graph_output (graph m')) = length (graph_node (graph m))
    ∧ Forall2 (λ v n, node_output n = [vi_name v]
                      ∧ is_Some (output_mapping !! vi_name v))
              (graph_output (graph m')) (graph_node (graph m)).
Proof.
  intros Hm Hio Hadd. rewrite (add_output_nodes_eq _ _ _ Hm) in Hadd.
  injection Hadd as <- <-. eexists. split; [apply lookup_insert_eq|]. simpl.
  unfold get_io_to_node_mapping in Hio.
  pose proof (io_mapping_loop_spec (graph_node (graph m)) ∅ ∅) as Hspec.
  rewrite Hio in Hspec. destruct Hspec as (Hall & Hom & _).
  assert (∀ o, (∃ n, n ∈ graph_node (graph m) ∧ o ∈ node_output n) →
               is_Some (output_mapping !! o)) as Hkey.
  { intros o Hex. rewrite Hom. unfold last_named.
    apply (last_filter_exists (λ n, o ∈ node_output n)) in Hex as (n & -> & _).
    by eexists. }
  clear Hom Hio. induction (graph_node (graph m)) as [|n nodes IH]; simpl.
  - split; [done | constructor].
  - apply Forall_cons in Hall as [Hone Hall]. unfold one_output in Hone.
    destruct (node_output n) as [|o [|o2 outs]] eqn:Eout; simpl in Hone; try lia.
    simpl. destruct IH as [Hlen Hf2]; [done | |].
    + intros o' (n' & Hn' & Ho'). apply Hkey. exists n'. set_solver.
    + split; [by rewrite Hlen|]. constructor; [|done]. split; [done|]. simpl.
      apply Hkey. exists n. rewrite Eout. set_solver.
Qed.

Lemma instrumented_outputs_indexed_chain :
  ∃ model' σ' m',
    add_output_nodes {[ 1%positive := chain_model ]} 1%positive = Some (model', σ')
    ∧ σ' !! model' = Some m'
    ∧ length (graph_output (graph m')) = 2%nat.
Proof.
  pose proof (add_output_nodes_eq {[ 1%positive := chain_model ]} 1%positive
                chain_model (lookup_singleton_eq _ _)) as Hadd.
  eassert (get_io_to_node_mapping chain_model = Ok (_, _)) as Hio by reflexivity.
  destruct (instrumented_outputs_indexed _ _ _ _ _ _ _ (lookup_singleton_eq _ _)
              Hio Hadd) as (m' & Hm' & Hlen & _).
  eexists _, _, m'. split; [exact Hadd|]. split; [exact Hm' | exact Hlen].
Defined.

(** ** Dependency propagation: errors and shape of the result *)

Lemma children_of_outputs_outcome skip (im : gmap string string) nm outs
    (mc0 : gmap string (list string)) :
  match children_of_outputs skip im nm outs mc0 with
  | Ok _ => ∀ o, o ∈ outs → o ∉ skip → is_Some (im !! o)
  | Raise e => e = KeyError ∧ ∃ o, o ∈ outs ∧ (o ∉ skip) ∧ im !! o = None
  end.
Proof.
  revert mc0. induction outs as [|o outs IH]; intros mc0; simpl.
  - intros o Ho. by apply elem_of_nil in Ho.
  - destruct (decide (o ∈ skip)) as [Hskip|Hskip].
    + specialize (IH mc0). destruct (children_of_outputs _ _ _ outs mc0).
      * intros o' [->|Ho']%elem_of_cons Hns; [done | by apply IH].
      * destruct IH as (-> & o' & ? & ? & ?). split; [done|].
        exists o'. set_solver.
    + destruct (im !! o) as [child|] eqn:Eo.
      * specialize (IH (<[nm := default [] (mc0 !! nm) ++ [child]]> mc0)).
        destruct (children_of_outputs _ _ _ outs _).
        -- intros o' [->|Ho']%elem_of_cons Hns; [by rewrite Eo | by apply IH].
        -- destruct IH as (-> & o' & ? & ? & ?). split; [done|].
           exists o'. set_solver.
      * split; [done|]. exists o. set_solver.
Qed.

Lemma build_map_children_outcome skip (im : gmap string string) nodes
    (mc0 : gmap string (list string)) :
  match build_map_children skip im nodes mc0 with
  | Ok _ => ∀ node o, node ∈ nodes → o ∈ node_output node → o ∉ skip →
                      is_Some (im !! o)
  | Raise e => e = KeyError
               ∧ ∃ node o, node ∈ nodes ∧ o ∈ node_output node ∧ (o ∉ skip)
                           ∧ im !! o = None
  end.
Proof.
  revert mc0. induction nodes as [|n nodes IH]; intros mc0; simpl.
  - intros node o Hn. by apply elem_of_nil in Hn.
  - pose proof (children_of_outputs_outcome skip im (node_name n) (node_output n) mc0)
      as Hone.
    destruct (children_of_outputs _ _ _ _ mc0) as [mc1|e].
    + specialize (IH mc1). destruct (build_map_children _ _ nodes mc1).
      * intros node o [->|Hn]%elem_of_cons Ho Hns; [by apply Hone | by eapply IH].
      * destruct IH as (-> & node & o & ? & ? & ? & ?). split; [done|].
        exists node, o. set_solver.
    + destruct Hone as (-> & o & ? & ? & ?). split; [done|].
      exists n, o. set_solver.
Qed.

(** X5. The propagation step fails only with [KeyError], and exactly when
    some node of the graph, unsafe or not, has an output that is not a
    graph-level input, output or initializer name and that
    [input_mapping] does not hold (no node consumes it). Otherwise it
    returns the list it was given followed by the children, so nothing
    is dropped, and an empty list stays empty. *)
Theorem propagate_children_outcome (onnx_model : ModelProto)
    (input_mapping : gmap string string) (keep_fp32_nodes : list string) :
  match propagate_children onnx_model input_mapping keep_fp32_nodes with
  | Ok r =>
      (∀ node o, node ∈ graph_node (graph onnx_model) → o ∈ node_output node →
                 o ∉ nodes_to_skip (graph onnx_model) →
                 is_Some (input_mapping !! o))
      ∧ keep_fp32_nodes `prefix_of` r
      ∧ (keep_fp32_nodes = [] → r = [])
  | Raise e =>
      e = KeyError
      ∧ ∃ node o, node ∈ graph_node (graph onnx_model) ∧ o ∈ node_output node
                  ∧ (o ∉ nodes_to_skip (graph onnx_model))
                  ∧ input_mapping !! o = None
  end.
Proof.
  unfold propagate_children.
  pose proof (build_map_children_outcome (nodes_to_skip (graph onnx_model))
                input_mapping (graph_node (graph onnx_model)) ∅) as Hout.
  destruct (build_map_children _ _ _ _) as [mc|e]; [|done].
  split_and!; [done | by eexists |]. by intros ->.
Qed.

(** ** Range violation detector: errors and shape of the result *)

Lemma producers_outcome (graph : gmap string string) (items : list (string * Tensor)) :
  match producers graph items with
  | Ok names => Forall2 (λ kt n, graph !! kt.1 = Some n) items names
  | Raise e => e = KeyError ∧ ∃ kt, kt ∈ items ∧ graph !! kt.1 = None
  end.
Proof.
  unfold producers.
  destruct (mapM _ items) as [names|] eqn:E.
  - by apply mapM_Some in E.
  - split; [done|].
    induction items as [|kt items IH]; [done|]. simpl in E.
    destruct (graph !! kt.1) as [n|] eqn:Ek.
    + simpl in E. destruct (mapM _ items) as [names|] eqn:E'; [done|].
      destruct IH as (kt' & ? & ?); [done|]. exists kt'. set_solver.
    + exists kt. set_solver.
Qed.

(** X6. [find_node_fp32] fails only with [KeyError], and exactly when a
    tensor it would report has no entry in [graph]. When it returns, the
    list has one name per reported tensor, in order, each the entry of
    that tensor's name in [graph]; so it is never longer than the sample. *)
Theorem find_node_fp32_outcome (graph : gmap string string)
    (output_nodes : list (string * Tensor)) (h : heap) :
  match find_node_fp32 graph output_nodes h with
  | Ok names =>
      Forall2 (λ kt n, graph !! kt.1 = Some n) (filter (flagged h) output_nodes) names
      ∧ (length names ≤ length output_nodes)%nat
      ∧ (∀ kt, kt ∈ output_nodes → flagged h kt → is_Some (graph !! kt.1))
  | Raise e =>
      e = KeyError
      ∧ ∃ kt, kt ∈ output_nodes ∧ flagged h kt ∧ graph !! kt.1 = None
  end.
Proof.
  unfold find_node_fp32. rewrite find_node_fp32_loop_spec.
  pose proof (producers_outcome graph (filter (flagged h) output_nodes)) as Hp.
  destruct (producers _ _) as [names|e]; simpl.
  - split_and!; [done | |].
    + apply Forall2_length in Hp. rewrite <- Hp. apply length_filter.
    + intros kt Hin Hfl.
      assert (kt ∈ filter (flagged h) output_nodes) as Hin'
        by (by apply list_elem_of_filter).
      apply list_elem_of_lookup in Hin' as [i Hi].
      destruct (Forall2_lookup_l _ _ _ _ _ Hp Hi) as (n & _ & Hn). by eexists.
  - destruct Hp as (-> & kt & [Hfl Hin]%list_elem_of_filter & Hnone).
    split; [done|]. by exists kt.
Qed.

Lemma producers_app (graph : gmap string string) (l1 l2 : list (string * Tensor)) :
  producers graph (l1 ++ l2) =
  match producers graph l1, producers graph l2 with
  | Ok a, Ok b => Ok (a ++ b)
  | Raise e, _ => Raise e
  | Ok _, Raise e => Raise e
  end.
Proof.
  unfold producers. induction l1 as [|kt l1 IH]; simpl.
  - by destruct (mapM _ l2).
  - destruct (graph !! kt.1) as [n|]; simpl; [|done].
    destruct (mapM _ (l1 ++ l2)) as [r|], (mapM _ l1) as [a|], (mapM _ l2) as [b|];
      simpl in *; congruence.
Qed.

(** X7. The detector works tensor by tensor: on a sample made of two
    parts it returns the names for the first part followed by the names
    for the second, and fails if it fails on either. *)
Theorem find_node_fp32_app (graph : gmap string string)
    (l1 l2 : list (string * Tensor)) (h : heap) :
  find_node_fp32 graph (l1 ++ l2) h =
  match find_node_fp32 graph l1 h, find_node_fp32 graph l2 h with
  | Ok a, Ok b => Ok (a ++ b)
  | Raise e, _ => Raise e
  | Ok _, Raise e => Raise e
  end.
Proof.
  unfold find_node_fp32. rewrite !find_node_fp32_loop_spec, filter_app, producers_app.
  destruct (producers graph (filter (flagged h) l1)) as [a|]; [|done].
  by destruct (producers graph (filter (flagged h) l2)).
Qed.

(** ** Insertion-ordered dicts *)

Lemma dict_set_keys {V} k (v : V) (d : list (string * V)) :
  (dict_set k v d).*1 = if decide (k ∈ d.*1) then d.*1 else d.*1 ++ [k].
Proof.
  induction d as [|[k' v'] d IH]; cbn [dict_set].
  - destruct (decide (k ∈ ([] : list (string * V)).*1)) as [Hin|_]; [|done].
    simpl in Hin. by apply elem_of_nil in Hin.
  - rewrite fmap_cons. cbn [fst].
    destruct (decide (k' = k)) as [->|Hne].
    + rewrite fmap_cons. cbn [fst]. rewrite decide_True; [done | set_solver].
    + rewrite fmap_cons, IH. cbn [fst].
      destruct (decide (k ∈ d.*1)) as [Hin|Hnin].
      * rewrite decide_True; [done | set_solver].
      * rewrite decide_False; [done | set_solver].
Qed.

Lemma dict_set_NoDup {V} k (v : V) (d : list (string * V)) :
  NoDup d.*1 → NoDup (dict_set k v d).*1.
Proof.
  intros Hnd. rewrite dict_set_keys. case_decide; [done|].
  apply NoDup_app. split_and!; [done | | apply NoDup_singleton].
  intros x Hx ->%list_elem_of_singleton. done.
Qed.

Lemma dict_set_get {V} k (v : V) (d : list (string * V)) k' :
  dict_get k' (dict_set k v d) = if decide (k = k') then Some v else dict_get k' d.
Proof.
  induction d as [|[k0 v0] d IH]; simpl.
  - by destruct (decide (k = k')).
  - destruct (decide (k0 = k)) as [->|Hne]; simpl.
    + destruct (decide (k = k')); done.
    + destruct (decide (k0 = k')) as [->|Hne'].
      * by rewrite decide_False by done.
      * apply IH.
Qed.

(** ** Zero-copy inference bridge: results, errors and frame *)

Lemma bind_eq' {A B} (m : M A) (f : A → M B) s a s1 :
  m s = (Ok a, s1) → (m ≫= f) s = f a s1.
Proof. unfold mbind, M_bind. by intros ->. Qed.

Lemma bind_any {A B} (m : M A) (f : A → M B) s r s' :
  (m ≫= f) s = (r, s') →
  (∃ a s1, m s = (Ok a, s1) ∧ f a s1 = (r, s'))
  ∨ (∃ e, m s = (Raise e, s') ∧ r = Raise e).
Proof.
  unfold mbind, M_bind. destruct (m s) as [[a|e] s1].
  - intros Hf. left. eauto.
  - intros [= <- <-]. right. eauto.
Qed.

Section BridgeMore.

Context {engine : Engine}.

Lemma to_pytorch_outcome ort_tensor clone_tensor h r h' :
  to_pytorch ort_tensor clone_tensor h = (r, h') →
  match r with
  | Ok tensor => is_Some (dict_get (dtype tensor) torch_to_numpy_dtype_dict)
  | Raise e =>
      e = KeyError ∧ h' = h ∧ lower (ort_device_name ort_tensor) = "cuda"
      ∧ dict_get (ort_data_type ort_tensor) ort_to_numpy_dtype_dict = None
  end.
Proof.
  assert (∀ n, is_Some (dict_get (torch_of_numpy n) torch_to_numpy_dtype_dict)) as Hsup.
  { intros []; vm_compute; by eexists. }
  unfold to_pytorch.
  destruct (decide (lower (ort_device_name ort_tensor) = "cuda")) as [Hdev|Hdev].
  - destruct (dict_get (ort_data_type ort_tensor) ort_to_numpy_dtype_dict)
      as [np_type|] eqn:Ety.
    + destruct clone_tensor.
      * unfold clone, alloc. intros [= <- <-]. apply Hsup.
      * intros [= <- <-]. apply Hsup.
    + by intros [= <- <-].
  - destruct (ort_numpy ort_tensor h) as [np_tensor h1]. intros [= <- <-]. apply Hsup.
Qed.


Lemma alloc_frame data (h : heap) a h' :
  alloc data h = (a, h') →
  (a ∉ dom h) ∧ h' !! a = Some data ∧ ∀ x, x ∈ dom h → h' !! x = h !! x.
Proof.
  unfold alloc. intros [= <- <-]. pose proof (is_fresh (dom h)) as Hfresh.
  split_and!; [done | apply lookup_insert_eq |].
  intros x Hx. rewrite lookup_insert_ne; [done|]. by intros <-.
Qed.

Lemma type_int32_frame t h t' h' :
  type_int32 t h = (t', h') →
  (∀ x, x ∈ dom h → h' !! x = h !! x)
  ∧ dtype t' = torch_int32 ∧ shape t' = shape t
  ∧ requires_grad t' = requires_grad t ∧ is_contiguous t' = is_contiguous t.
Proof.
  unfold type_int32, alloc. intros [= <- <-]. simpl.
  pose proof (is_fresh (dom h)) as Hfresh. split_and!; [|done..].
  intros x Hx. rewrite lookup_insert_ne; [done|]. by intros <-.
Qed.

Lemma contiguous_frame t h t' h' :
  contiguous t h = (t', h') →
  (∀ x, x ∈ dom h → h' !! x = h !! x)
  ∧ dtype t' = dtype t ∧ shape t' = shape t
  ∧ requires_grad t' = requires_grad t ∧ is_contiguous t' = true
  ∧ (is_contiguous t = true → t' = t ∧ h' = h).
Proof.
  unfold contiguous, alloc. destruct (is_contiguous t) eqn:Ec.
  - intros [= <- <-]. by split_and!.
  - intros [= <- <-]. simpl. pose proof (is_fresh (dom h)) as Hfresh.
    split_and!; [|done..]. intros x Hx. rewrite lookup_insert_ne; [done|]. by intros <-.
Qed.

Lemma prepare_input_spec t h t' h' :
  prepare_input t h = (t', h') →
  prepared t t'
  ∧ (∀ x, x ∈ dom h → h' !! x = h !! x)
  ∧ (requires_grad t = false → is_contiguous t = true → dtype t ≠ torch_int64 →
     t' = t ∧ h' = h).
Proof.
  unfold prepare_input.
  destruct (decide (dtype (detach t) = torch_int64)) as [H64|H64]; simpl in H64.
  - destruct (type_int32 (detach t) h) as [t1 h1] eqn:E1.
    apply type_int32_frame in E1 as (Hf1 & Hd1 & Hs1 & Hg1 & Hc1). simpl in *.
    intros (Hf2 & Hd2 & Hs2 & Hg2 & Hc2 & _)%contiguous_frame.
    unfold prepared, narrowed. rewrite decide_True by done.
    split_and!; [congruence.. | | congruence].
    intros x Hx. rewrite Hf2, Hf1; [done..|].
    apply elem_of_dom. rewrite Hf1 by done. by apply elem_of_dom.
  - intros (Hf2 & Hd2 & Hs2 & Hg2 & Hc2 & Hsame)%contiguous_frame. simpl in *.
    unfold prepared, narrowed. rewrite decide_False by done.
    split_and!; [done.. |]. intros Hg Hc _.
    destruct (Hsame Hc) as [-> ->]. split; [|done].
    destruct t; simpl in *. by subst.
Qed.

(** The body of the input loop, in one equation. *)
Lemma bind_one_input_eq device device_id name s :
  bind_one_input device device_id name s =
  match cs_inputs s !! name with
  | None => (Ok (), s)
  | Some t =>
      let '(t', h') := prepare_input t (cs_heap s) in
      match dict_get (dtype t') torch_to_numpy_dtype_dict with
      | None =>
          (Raise KeyError,
           {| cs_heap := h'; cs_inputs := cs_inputs s; cs_binding := cs_binding s |})
      | Some np =>
          (Ok (),
           {| cs_heap := h'; cs_inputs := <[name := t']> (cs_inputs s);
              cs_binding :=
                bind_input {| bi_name := name; bi_device_type := device;
                              bi_device_id := device_id; bi_element_type := np;
                              bi_shape := shape t'; bi_buffer_ptr := data_ptr t' |}
                  <$> cs_binding s |})
      end
  end.
Proof.
  unfold bind_one_input. rewrite get_state_bind.
  destruct (cs_inputs s !! name) as [t|]; [|done].
  unfold prepare_input, mbind, M_bind, on_heap, lookup_or_raise, mret, M_ret, raise,
    on_binding, set_input.
  destruct (decide (dtype (detach t) = torch_int64)).
  - destruct (type_int32 (detach t) (cs_heap s)) as [t1 h1].
    cbn [cs_heap cs_inputs cs_binding].
    destruct (contiguous t1 h1) as [t2 h2]. cbn [cs_heap cs_inputs cs_binding].
    by destruct (dict_get (dtype t2) torch_to_numpy_dtype_dict).
  - cbn [cs_heap cs_inputs cs_binding].
    destruct (contiguous (detach t) (cs_heap s)) as [t2 h2].
    cbn [cs_heap cs_inputs cs_binding].
    by destruct (dict_get (dtype t2) torch_to_numpy_dtype_dict).
Qed.

Lemma narrowed_supported d :
  is_Some (dict_get (narrowed d) torch_to_numpy_dtype_dict)
  ↔ is_Some (dict_get d torch_to_numpy_dtype_dict).
Proof. destruct d; vm_compute; split; intros [? ?]; by eexists. Qed.

(** What one pass of the input loop leaves as it was, whatever its
    outcome, and when it raises. *)
Lemma bind_one_input_any device device_id name s r s' :
  bind_one_input device device_id name s = (r, s') →
  (∀ x, x ∈ dom (cs_heap s) → cs_heap s' !! x = cs_heap s !! x)
  ∧ (∀ n, n ≠ name → cs_inputs s' !! n = cs_inputs s !! n)
  ∧ (∀ n, is_Some (cs_inputs s' !! n) ↔ is_Some (cs_inputs s !! n))
  ∧ (∀ t, cs_inputs s !! name = Some t → requires_grad t = false →
          is_contiguous t = true → dtype t ≠ torch_int64 →
          cs_inputs s' !! name = Some t)
  ∧ binding_outputs <$> cs_binding s' = binding_outputs <$> cs_binding s
  ∧ binding_values <$> cs_binding s' = binding_values <$> cs_binding s
  ∧ match r with
    | Ok _ =>
        (∀ t, cs_inputs s !! name = Some t →
              is_Some (dict_get (dtype t) torch_to_numpy_dtype_dict))
        ∧ (∀ t, cs_inputs s !! name = Some t →
                ∃ t', cs_inputs s' !! name = Some t'
                      ∧ is_Some (dict_get (dtype t') torch_to_numpy_dtype_dict)
                      ∧ requires_grad t' = false ∧ is_contiguous t' = true
                      ∧ dtype t' ≠ torch_int64)
    | Raise e =>
        e = KeyError
        ∧ ∃ t, cs_inputs s !! name = Some t
               ∧ dict_get (dtype t) torch_to_numpy_dtype_dict = None
    end.
Proof.
  rewrite bind_one_input_eq.
  destruct (cs_inputs s !! name) as [t|] eqn:Ein.
  - destruct (prepare_input t (cs_heap s)) as [t' h'] eqn:Eprep.
    apply prepare_input_spec in Eprep as (Hprep & Hframe & Hsame).
    destruct Hprep as (Hd & Hg & Hc & Hs).
    destruct (dict_get (dtype t') torch_to_numpy_dtype_dict) as [np|] eqn:Enp.
    + intros [= <- <-]. simpl. split_and!.
      * done.
      * intros n Hn. by rewrite lookup_insert_ne.
      * intros n. destruct (decide (name = n)) as [<-|Hn].
        -- rewrite lookup_insert_eq, Ein. split; by eexists.
        -- by rewrite lookup_insert_ne.
      * intros t0 [= <-] Hg0 Hc0 H64. rewrite lookup_insert_eq.
        by destruct (Hsame Hg0 Hc0 H64) as [-> _].
      * by destruct (cs_binding s).
      * by destruct (cs_binding s).
      * intros t0 [= <-]. apply narrowed_supported. rewrite <- Hd, Enp. by eexists.
      * intros t0 [= <-]. exists t'. rewrite lookup_insert_eq.
        split_and!; [done | by eexists | done..|].
        rewrite Hd. unfold narrowed. case_decide; congruence.
    + intros [= <- <-]. simpl. split_and!; [done | done | done | | done | done | done |].
      * intros t0 [= <-] Hg0 Hc0 H64. congruence.
      * exists t. split; [done|].
        destruct (dict_get (dtype t) torch_to_numpy_dtype_dict) eqn:Et; [|done].
        assert (is_Some (dict_get (narrowed (dtype t)) torch_to_numpy_dtype_dict))
          as [? Hn] by (apply narrowed_supported; by eexists).
        rewrite <- Hd in Hn. congruence.
  - intros [= <- <-]. split_and!; [done | done | done | | done | done | |].
    + intros t. congruence.
    + intros t. congruence.
    + intros t. congruence.
Qed.

Lemma bind_inputs_any device device_id names s r s' :
  for_each names (bind_one_input device device_id) s = (r, s') →
  (∀ x, x ∈ dom (cs_heap s) → cs_heap s' !! x = cs_heap s !! x)
  ∧ (∀ n, n ∉ names → cs_inputs s' !! n = cs_inputs s !! n)
  ∧ (∀ n, is_Some (cs_inputs s' !! n) ↔ is_Some (cs_inputs s !! n))
  ∧ (∀ n t, cs_inputs s !! n = Some t → requires_grad t = false →
            is_contiguous t = true → dtype t ≠ torch_int64 →
            cs_inputs s' !! n = Some t)
  ∧ binding_outputs <$> cs_binding s' = binding_outputs <$> cs_binding s
  ∧ binding_values <$> cs_binding s' = binding_values <$> cs_binding s
  ∧ match r with
    | Ok _ =>
        ∀ n t, n ∈ names → cs_inputs s !! n = Some t →
               is_Some (dict_get (dtype t) torch_to_numpy_dtype_dict)
    | Raise e =>
        e = KeyError
        ∧ ∃ n t, n ∈ names ∧ cs_inputs s !! n = Some t
                 ∧ dict_get (dtype t) torch_to_numpy_dtype_dict = None
    end.
Proof.
  revert s. induction names as [|n names IH]; intros s Hrun.
  - injection Hrun as <- <-. split_and!; try done.
    intros n t Hn. by apply elem_of_nil in Hn.
  - cbn [for_each] in Hrun. apply bind_any in Hrun as [(u & s1 & Hhead & Htail)|(e & Hhead & ->)].
    + apply bind_one_input_any in Hhead
        as (Hf1 & Ho1 & Hd1 & Hn1 & Hbo1 & Hbv1 & Hsup1 & Hnorm1).
      apply IH in Htail as (Hf2 & Ho2 & Hd2 & Hn2 & Hbo2 & Hbv2 & Hr2).
      assert (∀ m t, cs_inputs s !! m = Some t → requires_grad t = false →
                     is_contiguous t = true → dtype t ≠ torch_int64 →
                     cs_inputs s1 !! m = Some t) as Hkeep1.
      { intros m t Hm Hg Hc H64. destruct (decide (m = n)) as [->|Hne].
        - by apply Hn1.
        - by rewrite Ho1. }
      split_and!.
      * intros x Hx. rewrite Hf2, Hf1; [done..|].
        apply elem_of_dom. rewrite Hf1 by done. by apply elem_of_dom.
      * intros m [Hne Hm]%not_elem_of_cons. by rewrite Ho2, Ho1.
      * intros m. by rewrite Hd2, Hd1.
      * intros m t Hm Hg Hc H64. apply Hn2; [|done..]. by apply Hkeep1.
      * congruence.
      * congruence.
      * destruct r as [u'|e].
        -- intros m t [->|Hm]%elem_of_cons Ht; [by apply Hsup1|].
           destruct (decide (m = n)) as [->|Hne]; [by apply Hsup1|].
           apply (Hr2 m); [done|]. by rewrite Ho1.
        -- destruct Hr2 as (-> & m & t & Hm & Ht & Hbad). split; [done|].
           destruct (decide (m = n)) as [->|Hne].
           ++ destruct (cs_inputs s !! n) as [t0|] eqn:E0.
              ** destruct (Hnorm1 t0 eq_refl) as (t' & Ht' & [? Hok] & _).
                 rewrite Ht in Ht'. injection Ht' as <-. congruence.
              ** assert (is_Some (cs_inputs s1 !! n)) as Hsome by (by eexists).
                 apply Hd1 in Hsome as [? ?]. congruence.
           ++ exists m, t. rewrite <- (Ho1 m Hne). set_solver.
    + apply bind_one_input_any in Hhead
        as (Hf1 & Ho1 & Hd1 & Hn1 & Hbo1 & Hbv1 & -> & t & Ht & Hbad).
      split_and!; try done.
      * intros m [Hne Hm]%not_elem_of_cons. by apply Ho1.
      * intros m t' Hm Hg Hc H64. destruct (decide (m = n)) as [->|Hne].
        -- by apply Hn1.
        -- by rewrite Ho1.
      * exists n, t. set_solver.
Qed.

Lemma bind_outputs_eq device device_id names s :
  for_each names (λ out_name,
    on_binding (bind_output {| bo_name := out_name; bo_device_type := device;
                               bo_device_id := device_id |})) s
  = (Ok (), {| cs_heap := cs_heap s; cs_inputs := cs_inputs s;
               cs_binding :=
                 (λ b, {| binding_inputs := binding_inputs b;
                          binding_outputs :=
                            binding_outputs b
                              ++ output_registrations device device_id names;
                          binding_values := binding_values b |})
                   <$> cs_binding s |}).
Proof.
  revert s. induction names as [|n names IH]; intros s.
  - simpl. destruct s as [h i [b|]]; simpl; [|done].
    destruct b. simpl. by rewrite app_nil_r.
  - cbn [for_each]. unfold mbind, M_bind. unfold on_binding at 1.
    rewrite IH. simpl. destruct (cs_binding s) as [b|]; simpl; [|done].
    by rewrite <- app_assoc.
Qed.

(** How a call of [bind_and_run] unfolds, whatever its outcome. *)
Lemma bind_and_run_inv model_onnx device device_id clone_tensor s r s' :
  bind_and_run model_onnx device device_id clone_tensor s = (r, s') →
  ∃ r2 s2,
    for_each (session_inputs model_onnx) (bind_one_input device device_id)
      {| cs_heap := cs_heap s; cs_inputs := cs_inputs s;
         cs_binding := Some (reset_binding (cs_binding s)) |} = (r2, s2)
    ∧ match r2 with
      | Raise e => r = Raise e ∧ s' = s2
      | Ok _ =>
          let b3 := (λ b, {| binding_inputs := binding_inputs b;
                             binding_outputs :=
                               binding_outputs b
                                 ++ output_registrations device device_id
                                      (session_outputs model_onnx);
                             binding_values := binding_values b |})
                      <$> cs_binding s2 in
          match run_with_iobinding model_onnx (default io_binding b3) (cs_heap s2) with
          | (Raise e, h4) =>
              r = Raise e
              ∧ s' = {| cs_heap := h4; cs_inputs := cs_inputs s2; cs_binding := b3 |}
          | (Ok vs, h4) =>
              let s4 := {| cs_heap := h4; cs_inputs := cs_inputs s2;
                           cs_binding := set_values vs <$> b3 |} in
              if decide (length (session_outputs model_onnx) = length vs)
              then collect_outputs clone_tensor
                     (zip (session_outputs model_onnx) vs) [] s4 = (r, s')
              else r = Raise AssertionError ∧ s' = s4
          end
      end.
Proof.
  unfold bind_and_run. rewrite get_state_bind. intros Hrun.
  assert ((match cs_binding s with
           | None => set_binding io_binding
           | Some _ => _ ← on_binding clear_binding_inputs;
                       on_binding clear_binding_outputs
           end) s
          = (Ok (), {| cs_heap := cs_heap s; cs_inputs := cs_inputs s;
                       cs_binding := Some (reset_binding (cs_binding s)) |})) as Hprep.
  { destruct (cs_binding s) as [b|] eqn:Eb; [|done].
    unfold mbind, M_bind, on_binding. simpl. by rewrite Eb. }
  unfold mbind at 1, M_bind at 1 in Hrun. rewrite Hprep in Hrun.
  apply bind_any in Hrun as [([] & s2 & Hloop & Hrun)|(e & Hloop & ->)].
  2: { exists (Raise e), s'. split; [done|]. done. }
  exists (Ok ()), s2. split; [done|].
  unfold mbind at 1, M_bind at 1 in Hrun. rewrite bind_outputs_eq in Hrun.
  unfold run in Hrun. cbn zeta.
  set (b3 := _ <$> cs_binding s2) in *.
  unfold mbind at 1, M_bind at 1 in Hrun. rewrite get_state_bind in Hrun.
  unfold mbind at 1, M_bind at 1, on_heap_result in Hrun.
  cbn [cs_heap cs_inputs cs_binding] in Hrun.
  destruct (run_with_iobinding model_onnx (default io_binding b3) (cs_heap s2))
    as [[vs|e] h4].
  - unfold on_binding in Hrun. cbn [cs_heap cs_inputs cs_binding] in Hrun.
    rewrite get_state_bind in Hrun. cbn [cs_heap cs_inputs cs_binding] in Hrun.
    assert (binding_values (default io_binding (set_values vs <$> b3)) = vs
            ∨ b3 = None) as [Hvs|Hnone].
    { destruct b3; [by left | by right]. }
    + rewrite Hvs in Hrun. unfold mbind at 1, M_bind at 1, assert in Hrun.
      destruct (decide (length (session_outputs model_onnx) = length vs)) as [Hlen|Hlen].
      * by rewrite bool_decide_eq_true_2 in Hrun.
      * rewrite bool_decide_eq_false_2 in Hrun by done. by injection Hrun as <- <-.
    + exfalso. unfold b3 in Hnone. apply fmap_None in Hnone.
      apply bind_inputs_any in Hloop as (_ & _ & _ & _ & Hbo & _).
      rewrite Hnone in Hbo. done.
  - by injection Hrun as <- <-.
Qed.

Lemma collect_outputs_keys clone_tensor pairs (acc : list (string * Tensor)) s r s' :
  collect_outputs clone_tensor pairs acc s = (Ok r, s') →
  NoDup acc.*1 →
  NoDup r.*1
  ∧ (∀ k, k ∈ r.*1 ↔ k ∈ acc.*1 ∨ k ∈ pairs.*1)
  ∧ (NoDup (acc.*1 ++ pairs.*1) → r.*1 = acc.*1 ++ pairs.*1)
  ∧ (Forall (λ kt, is_Some (dict_get (dtype kt.2) torch_to_numpy_dtype_dict)) acc →
     Forall (λ kt, is_Some (dict_get (dtype kt.2) torch_to_numpy_dtype_dict)) r).
Proof.
  revert acc s. induction pairs as [|[k v] pairs IH]; intros acc s Hrun Hnd.
  - injection Hrun as <- <-. simpl. rewrite app_nil_r.
    split_and!; [done | | done | done]. intros k. split; [by left|].
    intros [?|Hk]; [done | by apply elem_of_nil in Hk].
  - cbn [collect_outputs] in Hrun.
    apply bind_any in Hrun as [(tensor & s1 & Hto & Hrun)|(e & _ & [=])].
    apply IH in Hrun as (Hnd' & Hkeys & Heq & Hsup); [|by apply dict_set_NoDup].
    rewrite dict_set_keys in Hkeys, Heq. rewrite fmap_cons. cbn [fst].
    split_and!.
    + done.
    + intros k'. rewrite Hkeys. case_decide; set_solver.
    + intros Hnd2. rewrite decide_False in Heq.
      * rewrite <- app_assoc in Heq. apply Heq. exact Hnd2.
      * apply NoDup_app in Hnd2 as (_ & Hdisj & _). intros Hin.
        apply (Hdisj k Hin). set_solver.
    + intros Hacc. apply Hsup.
      unfold on_heap_result in Hto.
      destruct (to_pytorch v clone_tensor (cs_heap s)) as [rt h1] eqn:Et.
      injection Hto as -> <-. apply to_pytorch_outcome in Et.
      clear -Hacc Et. induction acc as [|[k0 v0] acc IHacc]; simpl.
      * by constructor.
      * apply Forall_cons in Hacc as [H0 Hacc].
        destruct (decide (k0 = k)); constructor; try done. by apply IHacc.
Qed.

Lemma collect_outputs_binding clone_tensor pairs (acc : list (string * Tensor)) s r s' :
  collect_outputs clone_tensor pairs acc s = (r, s') → cs_binding s' = cs_binding s.
Proof.
  revert acc s. induction pairs as [|[k v] pairs IH]; intros acc s Hrun.
  - by injection Hrun as _ <-.
  - cbn [collect_outputs] in Hrun. unfold on_heap_result in Hrun.
    apply bind_any in Hrun as [(tensor & s1 & Hto & Hrun)|(e & Hto & _)].
    + apply IH in Hrun. rewrite Hrun.
      destruct (to_pytorch v clone_tensor (cs_heap s)). by injection Hto as _ <-.
    + destruct (to_pytorch v clone_tensor (cs_heap s)). by injection Hto as _ <-.
Qed.


(** X10. A graph input whose tensor has an element type outside
    [torch_to_numpy_dtype_dict] (bfloat16, for one) makes the call raise
    [KeyError] while inputs are being bound: no output is registered and
    no engine value is left in the binding, and storage that existed
    before the call is as it was. *)
Theorem inference_onnx_binding_unsupported_dtype (model_onnx : InferenceSession)
    (device : string) (device_id : Z) (clone_tensor : bool) (s : call_state)
    (name : string) (t : Tensor) :
  device = "cpu" ∨ device = "cuda" →
  name ∈ session_inputs model_onnx →
  cs_inputs s !! name = Some t →
  dict_get (dtype t) torch_to_numpy_dtype_dict = None →
  ∃ s',
    inference_onnx_binding model_onnx (PyStr device) device_id clone_tensor s
    = (Raise KeyError, s')
    ∧ (∀ x, x ∈ dom (cs_heap s) → cs_heap s' !! x = cs_heap s !! x)
    ∧ binding_outputs <$> cs_binding s' = Some []
    ∧ binding_values <$> cs_binding s' = Some [].
Proof.
  intros Hdev Hname Ht Hbad. unfold inference_onnx_binding.
  assert (assert (bool_decide (device ∈ ["cpu"; "cuda"])) s = (Ok (), s)) as Hassert.
  { rewrite bool_decide_eq_true_2; [done|]. set_solver. }
  rewrite (bind_eq' _ _ _ _ _ Hassert).
  destruct (bind_and_run model_onnx device device_id clone_tensor s) as [r s'] eqn:Erun.
  apply bind_and_run_inv in Erun as (r2 & s2 & Hloop & Hrest).
  apply bind_inputs_any in Hloop as (Hf & _ & _ & _ & Hbo & Hbv & Hr2).
  destruct r2 as [[]|e].
  - destruct (Hr2 name t Hname Ht) as [? ?]. congruence.
  - destruct Hr2 as (-> & _). destruct Hrest as [-> ->].
    exists s2. split_and!; [done | done | |].
    + rewrite Hbo. simpl. by destruct (cs_binding s).
    + rewrite Hbv. simpl. by destruct (cs_binding s).
Qed.

Lemma bind_inputs_names device device_id names s s' b :
  for_each names (bind_one_input device device_id) s = (Ok (), s') →
  cs_binding s = Some b →
  ∃ entries,
    cs_binding s' = Some {| binding_inputs := binding_inputs b ++ entries;
                            binding_outputs := binding_outputs b;
                            binding_values := binding_values b |}
    ∧ bi_name <$> entries = filter (λ n, is_Some (cs_inputs s !! n)) names
    ∧ Forall (λ e, bi_device_type e = device ∧ bi_device_id e = device_id) entries.
Proof.
  revert s b. induction names as [|n names IH]; intros s b Hrun Hb.
  - injection Hrun as <-. exists []. rewrite app_nil_r. destruct b.
    split_and!; [done | done | constructor].
  - cbn [for_each] in Hrun. apply bind_ok in Hrun as ([] & s1 & Hhead & Htail).
    pose proof (bind_one_input_any _ _ _ _ _ _ Hhead) as (_ & _ & Hdom & _).
    rewrite bind_one_input_eq in Hhead.
    assert (filter (λ m, is_Some (cs_inputs s1 !! m)) names
            = filter (λ m, is_Some (cs_inputs s !! m)) names) as Hfilter.
    { apply filter_ext_in. intros m _. apply Hdom. }
    rewrite filter_cons.
    destruct (cs_inputs s !! n) as [t|] eqn:Ein.
    + destruct (prepare_input t (cs_heap s)) as [t' h'].
      destruct (dict_get (dtype t') torch_to_numpy_dtype_dict) as [np|]; [|done].
      injection Hhead as <-. rewrite decide_True by (by eexists).
      destruct (IH _ _ Htail ltac:(simpl; by rewrite Hb)) as (entries & Hb' & Hn & Hdev).
      simpl in Hb', Hn. eexists (_ :: entries). split_and!.
      * rewrite Hb'. by rewrite <- app_assoc.
      * rewrite fmap_cons. simpl. by rewrite Hn, <- Hfilter.
      * constructor; [done | done].
    + injection Hhead as <-. rewrite decide_False by (by intros [? ?]).
      by apply IH.
Qed.

(** X11. A successful call leaves in the binding exactly the
    registrations of this call, whatever the binding held before: one
    input per graph input present in the caller's mapping, in the order
    of the graph inputs, and one output per session output, all on the
    device and device id of the call. *)
Theorem inference_onnx_binding_resets_binding (model_onnx : InferenceSession)
    (device : string) (device_id : Z) (clone_tensor : bool)
    (s s' : call_state) (outputs : list (string * Tensor)) :
  inference_onnx_binding model_onnx (PyStr device) device_id clone_tensor s
  = (Ok outputs, s') →
  ∃ b',
    cs_binding s' = Some b'
    ∧ bi_name <$> binding_inputs b'
      = filter (λ n, is_Some (cs_inputs s !! n)) (session_inputs model_onnx)
    ∧ Forall (λ e, bi_device_type e = device ∧ bi_device_id e = device_id)
             (binding_inputs b')
    ∧ binding_outputs b'
      = output_registrations device device_id (session_outputs model_onnx).
Proof.
  intros Hcall. unfold inference_onnx_binding in Hcall.
  apply bind_ok in Hcall as ([] & s0 & Hassert & Hcall).
  apply assert_ok in Hassert as [_ ->].
  apply bind_and_run_inv in Hcall as (r2 & s2 & Hloop & Hrest).
  destruct r2 as [[]|e]; [|by destruct Hrest]. cbn zeta in Hrest.
  destruct (bind_inputs_names _ _ _ _ _ _ Hloop eq_refl) as (entries & Hb2 & Hn & Hdev).
  simpl in Hn. rewrite Hb2 in Hrest. simpl in Hrest.
  destruct (run_with_iobinding _ _ _) as [[vs|e] h4]; [|by destruct Hrest].
  destruct (decide (length (session_outputs model_onnx) = length vs)) as [Hlen|Hlen];
    [|by destruct Hrest].
  apply collect_outputs_binding in Hrest. simpl in Hrest.
  eexists. split; [exact Hrest|]. simpl.
  assert (binding_inputs (reset_binding (cs_binding s)) = []
          ∧ binding_outputs (reset_binding (cs_binding s)) = []) as [-> ->].
  { by destruct (cs_binding s). }
  simpl. by split_and!.
Qed.

(** X12. Whatever the outcome of the call, the caller's mapping keeps its
    keys; entries under names that are not graph inputs are not touched;
    and an entry that is already detached, contiguous and not int64 is
    left as it is. *)
Theorem inference_onnx_binding_inputs_frame (model_onnx : InferenceSession)
    (device : pyobj) (device_id : Z) (clone_tensor : bool)
    (s s' : call_state) (r : result (list (string * Tensor))) :
  inference_onnx_binding model_onnx device device_id clone_tensor s = (r, s') →
  (∀ n, is_Some (cs_inputs s' !! n) ↔ is_Some (cs_inputs s !! n))
  ∧ (∀ n, n ∉ session_inputs model_onnx → cs_inputs s' !! n = cs_inputs s !! n)
  ∧ (∀ n t, cs_inputs s !! n = Some t → requires_grad t = false →
            is_contiguous t = true → dtype t ≠ torch_int64 →
            cs_inputs s' !! n = Some t).
Proof.
  intros Hcall. unfold inference_onnx_binding in Hcall.
  destruct device as [d| |]; [|by injection Hcall as _ <-..].
  apply bind_any in Hcall as [([] & s0 & Hassert & Hcall)|(e & Hassert & _)].
  2: { unfold assert in Hassert. destruct (bool_decide _); [done|].
       by injection Hassert as _ <-. }
  apply assert_ok in Hassert as [_ ->].
  apply bind_and_run_inv in Hcall as (r2 & s2 & Hloop & Hrest).
  apply bind_inputs_any in Hloop as (_ & Hother & Hdom & Hnorm & _).
  simpl in Hother, Hdom, Hnorm.
  assert (cs_inputs s' = cs_inputs s2) as ->; [|done].
  destruct r2 as [[]|e]; [|by destruct Hrest as [_ ->]]. cbn zeta in Hrest.
  destruct (run_with_iobinding _ _ _) as [[vs|e] h4]; [|by destruct Hrest as [_ ->]].
  destruct (decide (length (session_outputs model_onnx) = length vs)) as [Hlen|Hlen];
    [|by destruct Hrest as [_ ->]].
  apply collect_outputs_view in Hrest. by injection Hrest.
Qed.

(** X13. Binding the inputs never writes into storage that exists when
    the loop starts, whether the loop completes or raises: a narrowed or
    contiguous copy goes to new storage, so every tensor the caller holds
    still reads as before. *)
Theorem bind_inputs_heap_frame (model_onnx : InferenceSession)
    (device : string) (device_id : Z) (s s' : call_state) (r : result ()) :
  for_each (session_inputs model_onnx) (bind_one_input device device_id) s = (r, s') →
  (∀ x, x ∈ dom (cs_heap s) → cs_heap s' !! x = cs_heap s !! x)
  ∧ (∀ t, data_ptr t ∈ dom (cs_heap s) →
          tensor_data (cs_heap s') t = tensor_data (cs_heap s) t).
Proof.
  intros (Hf & _)%bind_inputs_any. split; [done|].
  intros t Ht. unfold tensor_data. by rewrite Hf.
Qed.

End BridgeMore.


(** A bfloat16 input on the chain model. *)
Lemma inference_onnx_binding_unsupported_dtype_toy :
  ∃ s',
    inference_onnx_binding (engine := view_engine)
      (toy_session chain_model []) (PyStr "cpu") 0 false bfloat16_call_state
    = (Raise KeyError, s')
    ∧ cs_heap s' !! 1%N = Some [SInt 0].
Proof.
  destruct (inference_onnx_binding_unsupported_dtype (engine := view_engine)
              (toy_session chain_model []) "cpu" 0 false bfloat16_call_state
              "x" bfloat16_input_tensor)
    as (s' & Hcall & Hframe & _).
  - by left.
  - vm_compute. constructor.
  - reflexivity.
  - reflexivity.
  - exists s'. split; [exact Hcall|]. rewrite Hframe; [reflexivity|].
    vm_compute. set_solver.
Defined.

Lemma inference_onnx_binding_resets_binding_toy :
  ∃ b',
    cs_binding (inference_onnx_binding (engine := view_engine)
                  (toy_session chain_model []) (PyStr "cpu") 0 false
                  (toy_call_state 70000 None)).2 = Some b'
    ∧ bi_name <$> binding_inputs b' = ["x"].
Proof.
  eassert (inference_onnx_binding (engine := view_engine)
             (toy_session chain_model []) (PyStr "cpu") 0 false
             (toy_call_state 70000 None) = (Ok _, _)) as Hcall
    by (vm_compute; reflexivity).
  destruct (inference_onnx_binding_resets_binding _ _ _ _ _ _ _ Hcall)
    as (b' & Hb' & Hnames & _).
  exists b'. rewrite Hcall. split; [exact Hb' | exact Hnames].
Defined.

Lemma inference_onnx_binding_inputs_frame_toy :
  is_Some (cs_inputs (inference_onnx_binding (engine := view_engine)
                        (toy_session chain_model []) (PyStr "cpu") 0 false
                        bfloat16_call_state).2 !! "x").
Proof.
  destruct (inference_onnx_binding (engine := view_engine)
              (toy_session chain_model []) (PyStr "cpu") 0 false
              bfloat16_call_state) as [r s'] eqn:Hcall.
  apply (proj1 (inference_onnx_binding_inputs_frame _ _ _ _ _ _ _ Hcall) "x").
  vm_compute. eexists. reflexivity.
Defined.

Lemma bind_inputs_heap_frame_toy :
  tensor_data
    (cs_heap (for_each (session_inputs (toy_session chain_model []))
                (bind_one_input "cpu" 0) (toy_call_state 70000 (Some io_binding))).2)
    toy_input_tensor
  = [SInt 70000].
Proof.
  destruct (for_each (session_inputs (toy_session chain_model []))
              (bind_one_input "cpu" 0) (toy_call_state 70000 (Some io_binding)))
    as [r s'] eqn:Hloop.
  destruct (bind_inputs_heap_frame _ _ _ _ _ _ Hloop)
    as [_ Hdata].
  simpl. rewrite Hdata; [reflexivity|]. vm_compute. set_solver.
Defined.

(** ** Mixed-precision advisor: what the loop collects *)

Lemma io_mapping_values (onnx_model : ModelProto) (im om : gmap string string) :
  get_io_to_node_mapping onnx_model = Ok (im, om) →
  Forall one_output (graph_node (graph onnx_model))
  ∧ (∀ n o, n ∈ graph_node (graph onnx_model) → o ∈ node_output n →
            is_Some (om !! o))
  ∧ (∀ o nm, om !! o = Some nm →
             ∃ n, n ∈ graph_node (graph onnx_model) ∧ node_name n = nm)
  ∧ (∀ i nm, im !! i = Some nm →
             ∃ n, n ∈ graph_node (graph onnx_model) ∧ node_name n = nm).
Proof.
  intros Hrun. unfold get_io_to_node_mapping in Hrun.
  pose proof (io_mapping_loop_spec (graph_node (graph onnx_model)) ∅ ∅) as Hspec.
  rewrite Hrun in Hspec. destruct Hspec as (Hall & Hom & Him).
  split_and!.
  - done.
  - intros n o Hn Ho. rewrite Hom. unfold last_named.
    destruct (last_filter_exists (λ n, o ∈ node_output n)
                (graph_node (graph onnx_model))) as (x & -> & _); [by exists n|].
    by eexists.
  - intros o nm. rewrite Hom, lookup_empty. unfold last_named.
    destruct (last (filter _ _)) as [n|] eqn:E; [|done].
    intros [= <-]. apply last_filter_Some in E as [Hn _]. by exists n.
  - intros i nm. rewrite Him, lookup_empty. unfold last_named.
    destruct (last (filter _ _)) as [n|] eqn:E; [|done].
    intros [= <-]. apply last_filter_Some in E as [Hn _]. by exists n.
Qed.

Lemma get_io_to_node_mapping_ok (onnx_model : ModelProto) :
  Forall one_output (graph_node (graph onnx_model)) →
  ∃ im om, get_io_to_node_mapping onnx_model = Ok (im, om).
Proof.
  intros Hall. unfold get_io_to_node_mapping.
  pose proof (io_mapping_loop_spec (graph_node (graph onnx_model)) ∅ ∅) as Hspec.
  destruct (io_mapping_loop _ _ _) as [[im om]|e]; [by eexists _, _|].
  destruct Hspec as [_ Hex]. apply Exists_exists in Hex as (n & Hn & Hnot).
  rewrite Forall_forall in Hall. destruct Hnot. by apply Hall.
Qed.

Lemma get_io_to_node_mapping_raise (onnx_model : ModelProto) :
  Exists (λ n, ¬ one_output n) (graph_node (graph onnx_model)) →
  get_io_to_node_mapping onnx_model = Raise AssertionError.
Proof.
  intros Hex. unfold get_io_to_node_mapping.
  pose proof (io_mapping_loop_spec (graph_node (graph onnx_model)) ∅ ∅) as Hspec.
  destruct (io_mapping_loop _ _ _) as [[im om]|e].
  - destruct Hspec as [Hall _]. apply Exists_exists in Hex as (n & Hn & Hnot).
    rewrite Forall_forall in Hall. destruct Hnot. by apply Hall.
  - by destruct Hspec as [-> _].
Qed.

Lemma find_node_fp32_names (graph : gmap string string)
    (outputs : list (string * Tensor)) h names :
  find_node_fp32 graph outputs h = Ok names →
  Forall2 (λ kt n, graph !! kt.1 = Some n) (filter (flagged h) outputs) names.
Proof.
  unfold find_node_fp32. rewrite find_node_fp32_loop_spec.
  pose proof (producers_outcome graph (filter (flagged h) outputs)) as Hp.
  destruct (producers _ _) as [ns|e]; [|done]. simpl. by intros [= <-].
Qed.

Lemma find_node_fp32_total (graph : gmap string string)
    (outputs : list (string * Tensor)) h :
  (∀ k, k ∈ outputs.*1 → is_Some (graph !! k)) →
  ∃ names, find_node_fp32 graph outputs h = Ok names.
Proof.
  intros Hkeys. unfold find_node_fp32. rewrite find_node_fp32_loop_spec.
  pose proof (producers_outcome graph (filter (flagged h) outputs)) as Hp.
  destruct (producers _ _) as [ns|e]; [by eexists|].
  destruct Hp as (_ & kt & Hkt & Hnone).
  apply list_elem_of_filter in Hkt as [_ Hkt].
  destruct (Hkeys kt.1) as [? ?]; [|congruence].
  apply list_elem_of_fmap. by exists kt.
Qed.

Lemma NoDup_fst_filter {A B} (P : A * B → Prop) `{∀ x, Decision (P x)}
    (l : list (A * B)) :
  NoDup l.*1 → NoDup (filter P l).*1.
Proof.
  induction l as [|x l IH]; [done|]. rewrite fmap_cons.
  intros [Hnot Hnd]%NoDup_cons. rewrite filter_cons.
  destruct (decide (P x)); [|by apply IH].
  rewrite fmap_cons. apply NoDup_cons. split; [|by apply IH].
  intros Hin. apply Hnot. apply list_elem_of_fmap in Hin as (y & -> & Hy).
  apply list_elem_of_filter in Hy as [_ Hy]. apply list_elem_of_fmap. by exists y.
Qed.

Lemma producers_NoDup (graph : gmap string string)
    (items : list (string * Tensor)) (names : list string) :
  (∀ o1 o2 n, graph !! o1 = Some n → graph !! o2 = Some n → o1 = o2) →
  NoDup items.*1 →
  Forall2 (λ kt n, graph !! kt.1 = Some n) items names → NoDup names.
Proof.
  intros Hinj Hnd Hf2. induction Hf2 as [|kt n items names Hkn Hf2 IH]; [constructor|].
  rewrite fmap_cons in Hnd. apply NoDup_cons in Hnd as [Hnot Hnd].
  apply NoDup_cons. split; [|by apply IH].
  intros Hn. apply Hnot. apply list_elem_of_lookup in Hn as [i Hi].
  destruct (Forall2_lookup_r _ _ _ _ _ Hf2 Hi) as (kt' & Hkt' & Hg).
  rewrite (Hinj _ _ _ Hkn Hg). apply list_elem_of_fmap. exists kt'.
  split; [done|]. by eapply list_elem_of_lookup_2.
Qed.

Lemma nodes_to_add_NoDup (keep_node_io keep : list string) :
  NoDup keep → NoDup keep_node_io → NoDup (keep ++ nodes_to_add keep_node_io keep).
Proof.
  intros Hk Hio. apply NoDup_app. split_and!; [done| |by apply NoDup_filter].
  intros x Hx Hin. unfold nodes_to_add in Hin.
  by apply list_elem_of_filter in Hin as [Hnot _].
Qed.

Section LoopMore.

Context {engine : Engine} {G : Type} {generator : Generator G}.

Implicit Types st : loop_state G.

Lemma inference_onnx_binding_keys model_onnx device device_id clone_tensor s outputs s' :
  inference_onnx_binding model_onnx device device_id clone_tensor s = (Ok outputs, s') →
  NoDup outputs.*1 ∧ ∀ k, k ∈ outputs.*1 → k ∈ session_outputs model_onnx.
Proof.
  intros Hcall. unfold inference_onnx_binding in Hcall.
  destruct device as [d| |]; [|done..].
  apply bind_ok in Hcall as ([] & s0 & Hassert & Hcall).
  apply assert_ok in Hassert as [_ ->].
  apply bind_and_run_inv in Hcall as (r2 & s2 & Hloop & Hrest).
  destruct r2 as [[]|e]; [|by destruct Hrest]. cbn zeta in Hrest.
  destruct (run_with_iobinding _ _ _) as [[vs|e] h4]; [|by destruct Hrest].
  destruct (decide (length (session_outputs model_onnx) = length vs)) as [Hlen|Hlen];
    [|by destruct Hrest].
  apply collect_outputs_keys in Hrest as (Hnd & Hkeys & _); [|constructor].
  split; [done|]. intros k [Hk|Hk]%Hkeys; [by apply elem_of_nil in Hk|].
  rewrite fst_zip in Hk by lia. done.
Qed.

Lemma inference_onnx_binding_bad_device model_onnx (device : string) device_id
    clone_tensor s :
  device ≠ "cpu" → device ≠ "cuda" →
  inference_onnx_binding model_onnx (PyStr device) device_id clone_tensor s
  = (Raise AssertionError, s).
Proof.
  intros Hcpu Hcuda. unfold inference_onnx_binding.
  rewrite bool_decide_eq_false_2; [done|].
  intros [->|[->|Hnil%elem_of_nil]%elem_of_cons]%elem_of_cons; done.
Qed.

Lemma sample_inv env st keep_node_io st1 :
  sample env st = Ok (keep_node_io, st1) →
  ∃ s outputs cs,
    inference_onnx_binding (ort_model_fp32_all_nodes env) (PyStr (device env))
      0 false s = (Ok outputs, cs)
    ∧ find_node_fp32 (output_mapping env) outputs (cs_heap cs) = Ok keep_node_io.
Proof.
  unfold sample. destruct (get_input _ _) as [[inputs g'] h1].
  destruct (inference_onnx_binding _ _ _ _ _) as [[outputs|e] cs] eqn:Hcall; [|done].
  destruct (find_node_fp32 _ _ _) as [io|e] eqn:Hfind; [|done].
  intros [= <- <-]. by eexists _, _, _.
Qed.

Lemma iterate_invariant env (I : list string → Prop) n st st' :
  (∀ st1 st2, loop_body env st1 = Ok st2 →
              I (keep_fp32_nodes st1) → I (keep_fp32_nodes st2)) →
  iterate env n st = Ok st' → I (keep_fp32_nodes st) → I (keep_fp32_nodes st').
Proof.
  intros Hstep. revert st. induction n as [|n IH]; intros st Hit Hst.
  - by injection Hit as <-.
  - cbn [iterate] in Hit. destruct (loop_body env st) as [st1|e] eqn:Hbody; [|done].
    eapply IH; [done|]. by eapply Hstep.
Qed.

Lemma loop_body_NoDup env st st' :
  (∀ o1 o2 n, output_mapping env !! o1 = Some n →
              output_mapping env !! o2 = Some n → o1 = o2) →
  loop_body env st = Ok st' →
  NoDup (keep_fp32_nodes st) → NoDup (keep_fp32_nodes st').
Proof.
  intros Hinj (io & st1 & Hsample & -> & _)%loop_body_spec Hnd.
  apply sample_inv in Hsample as (s & outputs & cs & Hcall & Hfind).
  apply nodes_to_add_NoDup; [done|].
  apply find_node_fp32_names in Hfind.
  apply (producers_NoDup _ _ _ Hinj) in Hfind; [done|].
  apply NoDup_fst_filter. by apply inference_onnx_binding_keys in Hcall as [? _].
Qed.

Lemma loop_body_elements env (P : string → Prop) st st' :
  (∀ o n, output_mapping env !! o = Some n → P n) →
  loop_body env st = Ok st' →
  Forall P (keep_fp32_nodes st) → Forall P (keep_fp32_nodes st').
Proof.
  intros Hval (io & st1 & Hsample & -> & _)%loop_body_spec Hall.
  apply sample_inv in Hsample as (s & outputs & cs & _ & Hfind).
  apply Forall_app. split; [done|]. apply Forall_forall. intros x Hx.
  unfold nodes_to_add in Hx. apply list_elem_of_filter in Hx as [_ Hx].
  apply find_node_fp32_names in Hfind.
  apply list_elem_of_lookup in Hx as [i Hi].
  destruct (Forall2_lookup_r _ _ _ _ _ Hfind Hi) as (kt & _ & Hg). by eapply Hval.
Qed.

Lemma sampling_loop_not_entered env fuel st :
  (early_stop env ≤ no_new_node_counter st)%Z →
  sampling_loop env (S fuel) st = Finished st.
Proof. intros Hstop. cbn [sampling_loop]. by rewrite decide_False by lia. Qed.

Lemma sampling_loop_first_pass env fuel st :
  (no_new_node_counter st < early_stop env)%Z →
  sampling_loop env (S fuel) st
  = match loop_body env st with
    | Raise e => Raised e
    | Ok st' => sampling_loop env fuel st'
    end.
Proof. intros Hgo. cbn [sampling_loop]. by rewrite decide_True by lia. Qed.

Lemma loop_body_bad_device env st :
  device env ≠ "cpu" → device env ≠ "cuda" →
  loop_body env st = Raise AssertionError.
Proof.
  intros Hcpu Hcuda. unfold loop_body, sample.
  destruct (get_input (ls_gen st) (ls_heap st)) as [[inputs g'] h1].
  by rewrite inference_onnx_binding_bad_device.
Qed.

(** X14. While sampling, the list never receives a name it already
    holds: if no two tensor names are mapped to the same node name, the
    list the loop ends with has no duplicates. (Propagation, after the
    loop, is what repeats names.) *)
Theorem sampling_loop_no_duplicates (env : sampling_env) (fuel : nat)
    (st st' : loop_state G) :
  (∀ o1 o2 n, output_mapping env !! o1 = Some n →
              output_mapping env !! o2 = Some n → o1 = o2) →
  NoDup (keep_fp32_nodes st) →
  sampling_loop env fuel st = Finished st' →
  NoDup (keep_fp32_nodes st').
Proof.
  intros Hinj Hnd (n & _ & Hit & _)%sampling_loop_finished.
  eapply (iterate_invariant env NoDup); [|done..].
  intros st1 st2. by apply loop_body_NoDup.
Qed.

(** X15. Every name [get_keep_fp32_nodes] returns is the name of a node
    of the graph. *)
Theorem get_keep_fp32_nodes_node_names (fuel : nat) (onnx_model : ModelProto)
    (g : G) (early_stop : Z) (device : string) (h : heap) (keep : list string) :
  get_keep_fp32_nodes fuel onnx_model g early_stop device h = Finished keep →
  ∀ nm, nm ∈ keep →
        ∃ n, n ∈ graph_node (graph onnx_model) ∧ node_name n = nm.
Proof.
  unfold get_keep_fp32_nodes. cbn zeta.
  destruct (get_io_to_node_mapping onnx_model) as [[im om]|e] eqn:Hio; [|done].
  apply io_mapping_values in Hio as (_ & _ & Hom & Him).
  destruct (sampling_loop _ _ _) as [st| |] eqn:Hloop; [|done..].
  destruct (propagate_children _ _ _) as [r|e] eqn:Hprop; [|done].
  intros [= <-] nm Hnm.
  apply sampling_loop_finished in Hloop as (n & _ & Hit & _).
  apply (iterate_invariant _
           (Forall (λ nm, ∃ n, n ∈ graph_node (graph onnx_model) ∧ node_name n = nm)))
    in Hit; [| |constructor].
  2: { intros st1 st2. apply loop_body_elements. exact Hom. }
  apply propagate_children_single_pass in Hprop as (added & -> & Hadded).
  apply elem_of_app in Hnm as [Hnm|Hnm].
  - rewrite Forall_forall in Hit. by apply Hit.
  - apply Hadded in Hnm as (k & node & o & _ & _ & _ & _ & _ & Hc). by eapply Him.
Qed.

(** X16. On a graph with a node that does not have exactly one output,
    the advisor raises [AssertionError], whatever the generator, the
    engine and the other arguments. *)
Theorem get_keep_fp32_nodes_malformed_graph (fuel : nat) (onnx_model : ModelProto)
    (g : G) (early_stop : Z) (device : string) (h : heap) :
  Exists (λ n, ¬ one_output n) (graph_node (graph onnx_model)) →
  get_keep_fp32_nodes fuel onnx_model g early_stop device h = Raised AssertionError.
Proof.
  intros Hex. unfold get_keep_fp32_nodes. cbn zeta.
  by rewrite (get_io_to_node_mapping_raise _ Hex).
Qed.

(** X17. With [early_stop <= 0] the advisor terminates and returns the
    empty list, whatever the generator and the engine, unless the graph
    itself is rejected. *)
Theorem get_keep_fp32_nodes_no_sampling (fuel : nat) (onnx_model : ModelProto)
    (g : G) (early_stop : Z) (device : string) (h : heap) :
  (early_stop ≤ 0)%Z → (0 < fuel)%nat →
  match get_keep_fp32_nodes fuel onnx_model g early_stop device h with
  | Finished keep => keep = []
  | Raised e =>
      (e = AssertionError
       ∧ Exists (λ n, ¬ one_output n) (graph_node (graph onnx_model)))
      ∨ (e = KeyError ∧ Forall one_output (graph_node (graph onnx_model)))
  | OutOfFuel => False
  end.
Proof.
  intros Hstop Hfuel. unfold get_keep_fp32_nodes. cbn zeta.
  pose proof (io_mapping_loop_spec (graph_node (graph onnx_model)) ∅ ∅) as Hspec.
  unfold get_io_to_node_mapping.
  destruct (io_mapping_loop _ _ _) as [[im om]|e]; [|by left].
  destruct Hspec as (Hall & _).
  destruct fuel as [|fuel]; [lia|].
  rewrite sampling_loop_not_entered by (simpl; lia). cbn [keep_fp32_nodes].
  unfold propagate_children.
  pose proof (build_map_children_outcome (nodes_to_skip (graph onnx_model)) im
                (graph_node (graph onnx_model)) ∅) as Hprop.
  destruct (build_map_children _ _ _ _) as [map_children|e].
  - reflexivity.
  - right. by destruct Hprop as [-> _].
Qed.

(** X18. With a device other than cpu and cuda, a graph the index
    accepts and [early_stop > 0], the advisor raises [AssertionError] in
    the first pass of the loop. *)
Theorem get_keep_fp32_nodes_bad_device (fuel : nat) (onnx_model : ModelProto)
    (g : G) (early_stop : Z) (device : string) (h : heap) :
  device ≠ "cpu" → device ≠ "cuda" → (0 < early_stop)%Z → (0 < fuel)%nat →
  Forall one_output (graph_node (graph onnx_model)) →
  get_keep_fp32_nodes fuel onnx_model g early_stop device h = Raised AssertionError.
Proof.
  intros Hcpu Hcuda Hstop Hfuel Hall. unfold get_keep_fp32_nodes. cbn zeta.
  destruct (get_io_to_node_mapping_ok _ Hall) as (im & om & ->).
  destruct fuel as [|fuel]; [lia|].
  rewrite sampling_loop_first_pass by (simpl; lia).
  by rewrite loop_body_bad_device.
Qed.

(** X19. The four pieces fit: on a session whose outputs are the graph
    outputs of the instrumented copy, every tensor a successful call
    returns has an entry in the [output_mapping] of the original model,
    so the detector does not raise. *)
Theorem find_node_fp32_on_instrumented_run (σ σ' : model_store) (model model' : ref)
    (m m' : ModelProto) (input_mapping output_mapping : gmap string string)
    (session : InferenceSession) (device : pyobj) (device_id : Z)
    (clone_tensor : bool) (s s' : call_state) (outputs : list (string * Tensor)) :
  σ !! model = Some m →
  add_output_nodes σ model = Some (model', σ') →
  σ' !! model' = Some m' →
  get_io_to_node_mapping m = Ok (input_mapping, output_mapping) →
  session_outputs session = vi_name <$> graph_output (graph m') →
  inference_onnx_binding session device device_id clone_tensor s = (Ok outputs, s') →
  ∃ names,
    find_node_fp32 output_mapping outputs (cs_heap s') = Ok names
    ∧ (length names ≤ length outputs)%nat.
Proof.
  intros Hm Hadd Hm' Hio Hsess Hcall.
  rewrite (add_output_nodes_eq _ _ _ Hm) in Hadd. injection Hadd as <- <-.
  rewrite lookup_insert_eq in Hm'. injection Hm' as <-.
  apply io_mapping_values in Hio as (_ & Hkeys & _).
  apply inference_onnx_binding_keys in Hcall as [_ Hsub].
  destruct (find_node_fp32_total output_mapping outputs (cs_heap s')) as [names Hfind].
  - intros k Hk%Hsub. rewrite Hsess in Hk. simpl in Hk.
    apply list_elem_of_fmap in Hk as (v & -> & Hv).
    apply list_elem_of_In, in_flat_map in Hv as (n & Hn & Hv).
    apply list_elem_of_In in Hn.
    apply list_elem_of_In, list_elem_of_fmap in Hv as (o & -> & Ho).
    by eapply Hkeys.
  - exists names. split; [done|]. apply find_node_fp32_names in Hfind.
    apply Forall2_length in Hfind. rewrite <- Hfind. apply length_filter.
Qed.

End LoopMore.

Lemma sampling_loop_no_duplicates_toy :
  ∃ st, toy_sampling_loop 10 = Finished st ∧ NoDup (keep_fp32_nodes st).
Proof.
  assert (∀ o1 o2 n : string,
            output_mapping toy_env !! o1 = Some n
            → output_mapping toy_env !! o2 = Some n → o1 = o2) as Hinj.
  { assert (output_mapping toy_env = <["y" := "B"]> (<["a" := "A"]> ∅)) as ->
      by reflexivity.
    intros o1 o2 n H1 H2.
    apply lookup_insert_Some in H1 as [[E1 N1]|[_ H1]];
      apply lookup_insert_Some in H2 as [[E2 N2]|[_ H2]].
    - congruence.
    - apply lookup_insert_Some in H2 as [[_ N2]|[_ H2]]; [congruence|].
      by rewrite lookup_empty in H2.
    - apply lookup_insert_Some in H1 as [[_ N1]|[_ H1]]; [congruence|].
      by rewrite lookup_empty in H1.
    - apply lookup_insert_Some in H1 as [[E1 N1]|[_ H1]];
        [|by rewrite lookup_empty in H1].
      apply lookup_insert_Some in H2 as [[E2 N2]|[_ H2]];
        [|by rewrite lookup_empty in H2].
      congruence. }
  eassert (toy_sampling_loop 10 = Finished _) as Hloop by (vm_compute; reflexivity).
  eexists. split; [exact Hloop|].
  exact (sampling_loop_no_duplicates (engine := view_engine)
           (generator := toy_generator) toy_env 10 toy_loop_state _ Hinj
           (NoDup_nil_2 (A := string)) Hloop).
Defined.

Lemma get_keep_fp32_nodes_node_names_chain :
  ∃ n, n ∈ graph_node (graph chain_model) ∧ node_name n = "B".
Proof.
  apply (get_keep_fp32_nodes_node_names (engine := view_engine)
           (generator := toy_generator) 10 chain_model 0%nat 3 "cpu"
           (toy_heap 70000) ["A"; "B"; "B"]).
  - vm_compute. reflexivity.
  - set_solver.
Defined.

Lemma get_keep_fp32_nodes_malformed_graph_split :
  get_keep_fp32_nodes (engine := view_engine) (generator := toy_generator)
    10 split_model 0%nat 3 "cpu" (toy_heap 70000)
  = Raised AssertionError.
Proof.
  apply get_keep_fp32_nodes_malformed_graph.
  apply Exists_cons_hd. vm_compute. discriminate.
Defined.

Lemma get_keep_fp32_nodes_no_sampling_chain :
  get_keep_fp32_nodes (engine := view_engine) (generator := toy_generator)
    10 chain_model 0%nat 0 "cpu" (toy_heap 70000)
  = Finished [].
Proof.
  pose proof (get_keep_fp32_nodes_no_sampling (engine := view_engine)
                (generator := toy_generator) 10 chain_model 0%nat 0 "cpu"
                (toy_heap 70000) ltac:(lia) ltac:(lia)) as Hnone.
  destruct (get_keep_fp32_nodes _ _ _ _ _ _) as [keep|e|] eqn:Hrun.
  - by rewrite Hnone.
  - vm_compute in Hrun. discriminate.
  - destruct Hnone.
Defined.

Lemma get_keep_fp32_nodes_bad_device_tpu :
  get_keep_fp32_nodes (engine := view_engine) (generator := toy_generator)
    10 chain_model 0%nat 3 "tpu" (toy_heap 70000)
  = Raised AssertionError.
Proof.
  apply get_keep_fp32_nodes_bad_device; [done | done | lia | lia |].
  repeat constructor.
Defined.

Lemma find_node_fp32_on_instrumented_run_chain :
  ∃ m' outputs s' names,
    add_output_nodes {[ 1%positive := chain_model ]} 1%positive
      ≫= (λ p, p.2 !! p.1) = Some m'
    ∧ inference_onnx_binding (engine := view_engine) (toy_session m' [])
        (PyStr "cpu") 0 false (toy_call_state 70000 None) = (Ok outputs, s')
    ∧ find_node_fp32 chain_output_mapping outputs (cs_heap s') = Ok names.
Proof.
  pose proof (add_output_nodes_eq {[ 1%positive := chain_model ]} 1%positive
                chain_model (lookup_singleton_eq _ _)) as Hadd.
  eassert (get_io_to_node_mapping chain_model = Ok (_, chain_output_mapping)) as Hio
    by reflexivity.
  eassert (inference_onnx_binding (engine := view_engine)
             (toy_session chain_all_nodes []) (PyStr "cpu") 0 false
             (toy_call_state 70000 None) = (Ok _, _)) as Hcall
    by (vm_compute; reflexivity).
  destruct (find_node_fp32_on_instrumented_run (engine := view_engine)
              _ _ _ _ chain_model chain_all_nodes _ _
              (toy_session chain_all_nodes []) _ _ _ _ _ _
              (lookup_singleton_eq _ _) Hadd (lookup_insert_eq _ _ _) Hio
              eq_refl Hcall) as (names & Hfind & _).
  eexists chain_all_nodes, _, _, names.
  split; [vm_compute; reflexivity|]. split; [exact Hcall | exact Hfind].
Defined.

(** ** Element type tables *)

(** X20. [torch_to_numpy_dtype_dict] is a true inverse of
    [numpy_to_torch_dtype_dict]: no two numpy types share a torch type,
    so a lookup in one table succeeds exactly when the lookup of the
    result in the other gives back the key; and every numpy type the
    engine's type names stand for has a torch type. *)
Theorem dtype_tables_round_trip :
  (∀ t n, dict_get t torch_to_numpy_dtype_dict = Some n
          ↔ dict_get n numpy_to_torch_dtype_dict = Some t)
  ∧ NoDup numpy_to_torch_dtype_dict.*1
  ∧ NoDup torch_to_numpy_dtype_dict.*1
  ∧ (∀ name n, dict_get name ort_to_numpy_dtype_dict = Some n →
               dict_get (torch_of_numpy n) torch_to_numpy_dtype_dict = Some n).
Proof.
  split_and!.
  - intros t n. destruct t, n; vm_compute; split; congruence.
  - vm_compute. repeat (apply NoDup_cons; split; [set_solver|]). apply NoDup_nil_2.
  - vm_compute. repeat (apply NoDup_cons; split; [set_solver|]). apply NoDup_nil_2.
  - intros name n Hn. destruct n; try reflexivity.
    all: exfalso; revert Hn; unfold ort_to_numpy_dtype_dict; cbn [dict_get];
      repeat case_decide; congruence.
Qed.

(** ** Session options *)

(** X21. The thread arguments of [create_model_for_provider] take effect
    for the CPU provider alone. With any other selection, a list naming
    the CPU provider after another one included, [nb_threads] and
    [nb_instances] are ignored and the execution mode and thread counts
    are those of a new [SessionOptions()]. *)
Theorem create_model_options_threads_ignored (options : SessionOptions)
    (provider_to_use : provider_arg) (nb_threads nb_instances : Z)
    (optimization_level : GraphOptimizationLevel) (enable_profiling : bool)
    (log_severity : Z) :
  providers_of provider_to_use ≠ ["CPUExecutionProvider"] →
  let result := create_model_options options provider_to_use nb_threads
                  nb_instances optimization_level enable_profiling log_severity in
  so_execution_mode result.1 = so_execution_mode options
  ∧ so_intra_op_num_threads result.1 = so_intra_op_num_threads options
  ∧ so_inter_op_num_threads result.1 = so_inter_op_num_threads options
  ∧ ∀ nb_threads' nb_instances',
      create_model_options options provider_to_use nb_threads' nb_instances'
        optimization_level enable_profiling log_severity = result.
Proof.
  intros Hp. unfold create_model_options. cbn zeta.
  rewrite decide_False by done. split_and!; try done.
  intros ? ?. by rewrite decide_False by done.
Qed.

(** X22. Parallel execution is selected only for the CPU provider alone
    and only together with an inter-op thread count above one; a
    provider given as a string and as a one-element list are treated
    alike. *)
Theorem create_model_options_parallel (options : SessionOptions)
    (provider_to_use : provider_arg) (nb_threads nb_instances : Z)
    (optimization_level : GraphOptimizationLevel) (enable_profiling : bool)
    (log_severity : Z) :
  so_execution_mode options = ORT_SEQUENTIAL →
  let result := create_model_options options provider_to_use nb_threads
                  nb_instances optimization_level enable_profiling log_severity in
  (so_execution_mode result.1 = ORT_PARALLEL ↔
     result.2 = ["CPUExecutionProvider"] ∧ (1 < nb_instances)%Z)
  ∧ (so_execution_mode result.1 = ORT_PARALLEL →
     so_inter_op_num_threads result.1 = nb_instances)
  ∧ (∀ p, provider_to_use = ProviderStr p →
          create_model_options options (ProviderList [p]) nb_threads nb_instances
            optimization_level enable_profiling log_severity = result).
Proof.
  intros Hseq. unfold create_model_options. cbn zeta.
  destruct (decide (providers_of provider_to_use = ["CPUExecutionProvider"]))
    as [Hp|Hp]; cbn [fst snd so_execution_mode so_inter_op_num_threads].
  - split_and!.
    + split.
      * destruct (decide (nb_instances ≤ 1)%Z); [done|]. intros _. split; [done|lia].
      * intros [_ Hn]. by rewrite decide_False by lia.
    + destruct (decide (nb_instances ≤ 1)%Z); [done|].
      intros _. rewrite decide_True by lia. done.
    + intros p ->. cbn [providers_of] in *. by rewrite decide_True by done.
  - split_and!.
    + rewrite Hseq. split; [done|]. by intros [? _].
    + by rewrite Hseq.
    + intros p ->. cbn [providers_of] in *. by rewrite decide_False by done.
Qed.

(** ** Optimizer call *)

(** X23. Whatever the architecture asked for, the optimizer is called
    with a model type it knows or with bert, with optimization level 1
    exactly for bert and 0 otherwise, and with the gelu approximation
    switched off; for an architecture the optimizer does not know, the
    call is the one for bert except that the fusion options are those
    built for the architecture asked for. *)
Theorem optimize_onnx_model_type (new_fusion_options : string → FusionOptions)
    (MODEL_TYPES : list string) (fp16 use_cuda : bool)
    (num_attention_heads hidden_size : Z) (architecture : string) :
  let call := optimize_onnx new_fusion_options MODEL_TYPES fp16 use_cuda
                num_attention_heads hidden_size architecture in
  (oc_model_type call ∈ MODEL_TYPES ∨ oc_model_type call = "bert")
  ∧ (oc_opt_level call = 1%Z ↔ oc_model_type call = "bert")
  ∧ (oc_opt_level call = 0%Z ↔ oc_model_type call ≠ "bert")
  ∧ fo_enable_gelu_approximation (oc_optimization_options call) = false
  ∧ fo_model_type (oc_optimization_options call)
    = fo_model_type (new_fusion_options architecture)
  ∧ (architecture = "distilbert" →
     fo_enable_embed_layer_norm (oc_optimization_options call) = false)
  ∧ (architecture ∉ MODEL_TYPES →
     oc_model_type call = "bert" ∧ oc_opt_level call = 1%Z).
Proof.
  unfold optimize_onnx. cbn zeta.
  cbn [oc_model_type oc_opt_level oc_optimization_options].
  destruct (decide (architecture ∉ MODEL_TYPES)) as [Hunknown|Hknown].
  - rewrite decide_True by done. split_and!; try done.
    + by right.
    + by destruct (decide (architecture = "distilbert")).
    + by destruct (decide (architecture = "distilbert")).
    + intros ->. by rewrite decide_True by done.
  - apply dec_stable in Hknown.
    destruct (decide (architecture = "bert")) as [Hbert|Hbert]; split_and!; try done.
    + by left.
    + by destruct (decide (architecture = "distilbert")).
    + by destruct (decide (architecture = "distilbert")).
    + intros ->. by rewrite decide_True by done.
    + by left.
    + by destruct (decide (architecture = "distilbert")).
    + by destruct (decide (architecture = "distilbert")).
    + intros ->. by rewrite decide_True by done.
Qed.

(** ** External data *)

Lemma use_external_data_loop_spec (initializer : list TensorProto) :
  use_external_data_loop initializer = true
  ↔ ∃ i, i ∈ initializer ∧ tp_external i = true.
Proof.
  induction initializer as [|i rest IH]; cbn [use_external_data_loop].
  - split; [done|]. intros (i & Hi & _). by apply elem_of_nil in Hi.
  - destruct (tp_external i) eqn:E.
    + split; [|done]. intros _. exists i. split; [constructor | done].
    + rewrite IH. split.
      * intros (j & Hj & Hext). exists j. split; [by constructor | done].
      * intros (j & [->|Hj]%elem_of_cons & Hext); [congruence|]. by exists j.
Qed.

(** X24. Whether a model uses external data depends on its initializers
    only, so the instrumented copy [add_output_nodes] returns answers as
    the model it was made from: the copy still refers to the external
    files of the original. *)
Theorem use_external_data_add_output_nodes (σ σ' : model_store) (model model' : ref)
    (m : ModelProto) :
  σ !! model = Some m →
  add_output_nodes σ model = Some (model', σ') →
  ∃ m', σ' !! model' = Some m'
        ∧ use_external_data m' = use_external_data m
        ∧ (use_external_data m = true
           ↔ ∃ i, i ∈ graph_initializer (graph m) ∧ tp_external i = true).
Proof.
  intros Hm Hadd. rewrite (add_output_nodes_eq _ _ _ Hm) in Hadd.
  injection Hadd as <- <-. eexists. split; [apply lookup_insert_eq|].
  split; [done|]. apply use_external_data_loop_spec.
Qed.

Lemma create_model_options_threads_ignored_gpu :
  create_model_options default_options
    (ProviderList ["CUDAExecutionProvider"; "CPUExecutionProvider"]) 8 4
    ORT_ENABLE_EXTENDED false 2
  = create_model_options default_options
      (ProviderList ["CUDAExecutionProvider"; "CPUExecutionProvider"]) 1 0
      ORT_ENABLE_EXTENDED false 2.
Proof.
  destruct (create_model_options_threads_ignored default_options
              (ProviderList ["CUDAExecutionProvider"; "CPUExecutionProvider"]) 1 0
              ORT_ENABLE_EXTENDED false 2) as (_ & _ & _ & Hsame).
  - discriminate.
  - apply Hsame.
Defined.

Lemma create_model_options_parallel_cpu :
  so_inter_op_num_threads
    (create_model_options default_options (ProviderStr "CPUExecutionProvider") 8 4
       ORT_ENABLE_EXTENDED false 2).1 = 4%Z.
Proof.
  destruct (create_model_options_parallel default_options
              (ProviderStr "CPUExecutionProvider") 8 4 ORT_ENABLE_EXTENDED false 2)
    as (_ & Hinter & _).
  - reflexivity.
  - apply Hinter. reflexivity.
Defined.

Lemma use_external_data_add_output_nodes_external :
  ∃ r σ' m',
    add_output_nodes {[ 1%positive := external_model ]} 1%positive = Some (r, σ')
    ∧ σ' !! r = Some m' ∧ use_external_data m' = true.
Proof.
  pose proof (add_output_nodes_eq {[ 1%positive := external_model ]} 1%positive
                external_model (lookup_singleton_eq _ _)) as Hadd.
  destruct (use_external_data_add_output_nodes _ _ _ _ _
              (lookup_singleton_eq _ _) Hadd) as (m' & Hm' & Hsame & _).
  eexists _, _, m'. split; [exact Hadd|]. split; [exact Hm'|].
  rewrite Hsame. reflexivity.
Defined.
